(** * blueetl-core: filter algebra and prefix cache

    A shallow embedding of [src/blueetl_core/utils.py]: the comparison
    operators and [compare], the and/or mask builder behind [query_frame]
    and [query_series], the sub-filter test [is_subfilter], the level
    checks of [smart_concat], and the incremental cache
    [CachedDataFrame].

    Python dictionaries keep their insertion order, so a dictionary is an
    association list whose keys are pairwise different; sets are [gset];
    an exception is a value of [exn] returned through [result].  Filter
    operands and table cells are integers, strings and lists of them.
    The filter algebra reads its arguments at the time of the call;
    the cache keeps the filter values of its callers, so its calls are
    also given on objects with a heap, in [Shared].  pandas and numpy
    are an interface, [Engine]. *)

From stdpp Require Import base option list strings gmap sets.
From Stdlib Require Import ZArith.

#[local] Set Warnings "-clear-no-such-hyp".


(** ** Exceptions and fallible results *)

(** One constructor per [raise] site of the module (the payload is what
    the message is formatted from), plus the two exceptions the Python
    runtime raises in the modelled fragment. *)
Inductive exn : Type :=
  | EmptyFilter
      (* ValueError("Empty filter") *)
  | UnsupportedOperators (unsupported : list string)
      (* ValueError(f"Unsupported operator(s): {unsupported}") *)
  | InvalidKeys (which : string)
      (* AssertionError("Invalid keys in d1"), resp. "... in d2" *)
  | LevelsLengthMismatch (nlevels got : nat)
      (* RuntimeError("Length of order must be same as number of levels
         ({nlevels}), got {got}") *)
  | LevelsNotFound (diff : gset string)
      (* RuntimeError(f"Levels not found: {''.join(diff)}") *)
  | KeyError (key : string)
  | TypeError.

Inductive pyclass : Type :=
  ValueError | AssertionError | RuntimeError | LookupError | TypeErrorClass.

Definition exn_class (e : exn) : pyclass :=
  match e with
  | EmptyFilter | UnsupportedOperators _ => ValueError
  | InvalidKeys _ => AssertionError
  | LevelsLengthMismatch _ _ | LevelsNotFound _ => RuntimeError
  | KeyError _ => LookupError
  | TypeError => TypeErrorClass
  end.

Inductive result (A : Type) : Type :=
  | Ok (a : A)
  | Err (e : exn).
Arguments Ok {A} a.
Arguments Err {A} e.

#[global] Instance result_ret : MRet result := @Ok.
#[global] Instance result_bind : MBind result := λ A B f m,
  match m with Ok a => f a | Err e => Err e end.

(** ** Python values *)

(** Filter operands and table cells: integers, strings and (nested)
    lists of them. *)
#[local] Unset Elimination Schemes.
Inductive pyval : Type :=
  | PInt (z : Z)
  | PStr (s : string)
  | PList (l : list pyval).
#[local] Set Elimination Schemes.

(** A filter value: a plain value (scalar or list), or a mapping from
    operator name to operand. *)
Inductive fvalue : Type :=
  | FVal (v : pyval)
  | FDict (d : list (string * pyval)).

(** [a == b] *)
Fixpoint py_eqb (a b : pyval) : bool :=
  match a, b with
  | PInt x, PInt y => (x =? y)%Z
  | PStr s, PStr t => String.eqb s t
  | PList l, PList k =>
      (fix go (l k : list pyval) : bool :=
         match l, k with
         | [], [] => true
         | x :: l', y :: k' => py_eqb x y && go l' k'
         | _, _ => false
         end) l k
  | _, _ => false
  end.

(** [a <= b]: defined inside one type only; two lists are compared at
    their first differing position, or by length. *)
Fixpoint py_le (a b : pyval) : result bool :=
  match a, b with
  | PInt x, PInt y => Ok (x <=? y)%Z
  | PStr s, PStr t => Ok (String.leb s t)
  | PList l, PList k =>
      (fix go (l k : list pyval) : result bool :=
         match l, k with
         | x :: l', y :: k' => if py_eqb x y then go l' k' else py_le x y
         | [], _ => Ok true
         | _ :: _, [] => Ok false
         end) l k
  | _, _ => Err TypeError
  end.

(** [a >= b] *)
Fixpoint py_ge (a b : pyval) : result bool :=
  match a, b with
  | PInt x, PInt y => Ok (y <=? x)%Z
  | PStr s, PStr t => Ok (String.leb t s)
  | PList l, PList k =>
      (fix go (l k : list pyval) : result bool :=
         match l, k with
         | x :: l', y :: k' => if py_eqb x y then go l' k' else py_ge x y
         | _, [] => Ok true
         | [], _ :: _ => Ok false
         end) l k
  | _, _ => Err TypeError
  end.

Definition hashable (v : pyval) : bool :=
  match v with PList _ => false | _ => true end.

Fixpoint chars (s : string) : list pyval :=
  match s with
  | EmptyString => []
  | String c s' => PStr (String c EmptyString) :: chars s'
  end.

(** [set(a)]: the elements of an iterable of hashable values. *)
Definition py_set (a : pyval) : result (list pyval) :=
  match a with
  | PList l => if forallb hashable l then Ok l else Err TypeError
  | PStr s => Ok (chars s)
  | PInt _ => Err TypeError
  end.

Definition py_in_list (x : pyval) (l : list pyval) : bool :=
  existsb (py_eqb x) l.

(** [set(a).issubset(b)] *)
Definition py_issubset (a b : pyval) : result bool :=
  sa ← py_set a;
  sb ← py_set b;
  Ok (forallb (λ x, py_in_list x sb) sa).

(** [x in c] *)
Definition py_contains (x c : pyval) : result bool :=
  match c with
  | PList l => Ok (py_in_list x l)
  | PStr s =>
      match x with
      | PStr t => Ok (bool_decide (is_Some (String.index 0 t s)))
      | _ => Err TypeError
      end
  | PInt _ => Err TypeError
  end.

(** ** Dictionaries as association lists *)

Section dict.
Context {V : Type}.
Implicit Types d : list (string * V).

(** [d[key]] / [key in d] *)
Fixpoint dict_get (key : string) d : option V :=
  match d with
  | [] => None
  | (k, v) :: d' => if String.eqb key k then Some v else dict_get key d'
  end.

Definition dict_has (key : string) d : bool :=
  bool_decide (is_Some (dict_get key d)).

(** [d[key] = v]: in place when the key exists, appended otherwise. *)
Fixpoint dict_set (key : string) (v : V) d : list (string * V) :=
  match d with
  | [] => [(key, v)]
  | (k, w) :: d' =>
      if String.eqb key k then (k, v) :: d' else (k, w) :: dict_set key v d'
  end.

(** [d.pop(key)] (the dictionary that remains) *)
Fixpoint dict_pop (key : string) d : list (string * V) :=
  match d with
  | [] => []
  | (k, w) :: d' =>
      if String.eqb key k then d' else (k, w) :: dict_pop key d'
  end.

Definition keys d : list string := d.*1.
Definition values d : list V := d.*2.

(** A list is a dictionary when no key occurs twice. *)
Definition is_dict d : Prop := NoDup (keys d).
End dict.

(** [d1 == d2] on operator mappings: same keys, equal values, in any
    order. *)
Definition dict_eqb (d1 d2 : list (string * pyval)) : bool :=
  (length d1 =? length d2) &&
  forallb (λ kv, match dict_get kv.1 d2 with
                 | Some w => py_eqb kv.2 w
                 | None => false
                 end) d1.

(** [v1 != v2] is [negb (fvalue_eqb v1 v2)]. *)
Definition fvalue_eqb (v1 v2 : fvalue) : bool :=
  match v1, v2 with
  | FVal a, FVal b => py_eqb a b
  | FDict d1, FDict d2 => dict_eqb d1 d2
  | _, _ => false
  end.

(** ** [is_subfilter] *)

(** A filter dictionary maps field names to filter values. *)
Definition filter_dict : Type := list (string * fvalue).

(** [_to_dict]: the normalized filter, where ["eq"] is folded into
    ["isin"]. *)
Definition _to_dict (obj : fvalue) : result (list (string * pyval)) :=
  match obj with
  | FDict d =>
      match dict_get "eq" d with
      | Some value =>
          let d' := dict_pop "eq" d in
          match dict_get "isin" d' with
          | None => Ok (dict_set "isin" (PList [value]) d')
          | Some c =>
              b ← py_contains value c;
              Ok (dict_set "isin" (if b : bool then PList [value] else PList []) d')
          end
      | None => Ok d
      end
  | FVal (PList l) => Ok [("isin", PList l)]
  | FVal v => Ok [("isin", PList [v])]
  end.

(** The mapping operator -> operation of [_is_subdict], in its order. *)
Definition operators : list (string * (pyval → pyval → result bool)) :=
  [ ("ne", λ a b, Ok (py_eqb a b));
    ("le", py_le);
    ("lt", py_le);
    ("ge", py_ge);
    ("gt", py_ge);
    ("isin", py_issubset) ].

(** The loop of [_is_subdict] over the operators that are left, with the
    set of unmatched keys so far. *)
Fixpoint unmatched_loop (ops : list (string * (pyval → pyval → result bool)))
    (d1 d2 : list (string * pyval)) (unmatched_keys : gset string)
    : result (gset string) :=
  match ops with
  | [] => Ok unmatched_keys
  | (op, operation) :: ops' =>
      match dict_get op d2 with
      | None => unmatched_loop ops' d1 d2 unmatched_keys
      | Some b =>
          match dict_get op d1 with
          | None => unmatched_loop ops' d1 d2 ({[op]} ∪ unmatched_keys)
          | Some a =>
              ok ← operation a b;
              unmatched_loop ops' d1 d2
                (if ok : bool then unmatched_keys else {[op]} ∪ unmatched_keys)
          end
      end
  end.

(** [set(operators).issuperset(d)] *)
Definition valid_keys (d : list (string * pyval)) : bool :=
  forallb (λ k, dict_has k operators) (keys d).

Definition _is_subdict (d1 d2 : list (string * pyval)) : result bool :=
  if negb (valid_keys d1) then Err (InvalidKeys "d1")
  else if negb (valid_keys d2) then Err (InvalidKeys "d2")
  else
    unmatched_keys ← unmatched_loop operators d1 d2 ∅;
    Ok (bool_decide (size unmatched_keys = 0)).

(** The [for key in right] loop of [is_subfilter] over the fields of
    [right] that are left, with the current [difference]. *)
Fixpoint subfilter_loop (left : filter_dict) (right : filter_dict)
    (strict : bool) (difference : gset string) : result bool :=
  match right with
  | [] => Ok (negb strict || bool_decide (0 < size difference))
  | (key, right_value) :: right' =>
      match dict_get key left with
      | None => Ok false
      | Some left_value =>
          dict_left ← _to_dict left_value;
          dict_right ← _to_dict right_value;
          if strict && dict_eqb dict_left dict_right then
            if bool_decide (key ∈ difference)
            then subfilter_loop left right' strict (difference ∖ {[key]})
            else Err (KeyError key)
          else
            sub ← _is_subdict dict_left dict_right;
            if negb sub then Ok false
            else subfilter_loop left right' strict difference
      end
  end.

Definition is_subfilter (left right : filter_dict) (strict : bool)
    : result bool :=
  subfilter_loop left right strict (list_to_set (keys left)).

(** ** The tabular engine *)

(** The comparison operators a filter may name. *)
Inductive operator : Type :=
  | op_eq | op_ne | op_le | op_lt | op_ge | op_gt | op_isin | op_regex.

Definition COMPARISON_OPERATORS : list (string * operator) :=
  [ ("eq", op_eq);
    ("ne", op_ne);
    ("le", op_le);
    ("lt", op_lt);
    ("ge", op_ge);
    ("gt", op_gt);
    ("isin", op_isin);
    ("regex", op_regex) ].

(** Boolean indexing: the elements whose mask entry is [true]. *)
Fixpoint filter_mask {A} (xs : list A) (mask : list bool) : list A :=
  match xs, mask with
  | x :: xs', b :: mask' =>
      if b then x :: filter_mask xs' mask' else filter_mask xs' mask'
  | _, _ => []
  end.

(** A row: its index labels (one per level) and its cells (one per
    column). *)
Record Row : Type := mkRow {
  row_index : list pyval;
  row_data : list pyval
}.

(** A DataFrame: the names of the index levels ([None] for an unnamed
    level), the column names and the rows in order. *)
Record DataFrame : Type := mkDataFrame {
  index_names : list (option string);
  columns : list string;
  rows : list Row
}.

(** A Series: index levels and one value per row. *)
Record Series : Type := mkSeries {
  s_index_names : list (option string);
  s_rows : list (list pyval * pyval)
}.

(** What the module asks of pandas and numpy: the operators of
    [COMPARISON_OPERATORS] applied to a Series or Index and an operand,
    [reorder_levels] and [concat].  A comparison that returns yields
    one boolean per element. *)
Class Engine : Type := {
  series_op : operator → list pyval → pyval → result (list bool);
  pd_reorder_levels : DataFrame → list (option string) → result DataFrame;
  pd_concat : list DataFrame → option (list pyval) → result DataFrame;
  series_op_length op obj v mask :
    series_op op obj v = Ok mask → length mask = length obj
}.

(** [np.all(masks, axis=0)] and [np.any(masks, axis=0)] on a non-empty
    list of masks of one length. *)
Definition np_all (masks : list (list bool)) : list bool :=
  match masks with
  | [] => []
  | m :: ms => foldl (zip_with andb) m ms
  end.

Definition np_any (masks : list (list bool)) : list bool :=
  match masks with
  | [] => []
  | m :: ms => foldl (zip_with orb) m ms
  end.

Fixpoint position (key : option string) (names : list (option string))
    : option nat :=
  match names with
  | [] => None
  | n :: names' =>
      if bool_decide (n = key) then Some 0 else S <$> position key names'
  end.

(** The value standing for a cell that a row does not have. *)
Definition missing : pyval := PList [].

(** [df[key]], one column: the column names of the table are taken to
    be distinct. *)
Definition getitem (df : DataFrame) (key : string) : result (list pyval) :=
  match position (Some key) (Some <$> columns df) with
  | Some j => Ok ((λ r, default missing (row_data r !! j)) <$> rows df)
  | None => Err (KeyError key)
  end.

(** [index.get_level_values(key)], the level names being distinct. *)
Definition get_level_values (names : list (option string))
    (labels : list (list pyval)) (key : string) : result (list pyval) :=
  match position (Some key) names with
  | Some j => Ok ((λ l, default missing (l !! j)) <$> labels)
  | None => Err (KeyError key)
  end.

(** [df.loc[mask]] *)
Definition loc (df : DataFrame) (mask : list bool) : DataFrame :=
  mkDataFrame (index_names df) (columns df) (filter_mask (rows df) mask).

Definition series_loc (s : Series) (mask : list bool) : Series :=
  mkSeries (s_index_names s) (filter_mask (s_rows s) mask).

(** ** [compare], [_and_or_mask], [query_frame], [query_series] *)

Section filter_algebra.
Context `{Engine}.

Definition operator_mask (obj : list pyval) (item : string * pyval)
    : result (list bool) :=
  match dict_get item.1 COMPARISON_OPERATORS with
  | Some op => series_op op obj item.2
  | None => Err (KeyError item.1)
  end.

Definition compare (obj : list pyval) (value : fvalue) : result (list bool) :=
  match value with
  | FDict [] => Err EmptyFilter
  | FDict d =>
      let unsupported :=
        filter (λ op, dict_has op COMPARISON_OPERATORS = false) (keys d) in
      match unsupported with
      | _ :: _ => Err (UnsupportedOperators unsupported)
      | [] =>
          masks ← mapM (operator_mask obj) d;
          Ok (match masks with [m] => m | _ => np_all masks end)
      end
  | FVal (PList l) => series_op op_isin obj (PList l)
  | FVal v => series_op op_eq obj v
  end.

(** The [for query in query_list] loop of [_and_or_mask]. *)
Fixpoint or_masks_loop (filter_func : filter_dict → result (list (list bool)))
    (query_list : list filter_dict) (or_masks : list (list bool))
    : result (list (list bool)) :=
  match query_list with
  | [] => Ok or_masks
  | [] :: query_list' => or_masks_loop filter_func query_list' or_masks
  | query :: query_list' =>
      and_masks ← filter_func query;
      or_masks_loop filter_func query_list'
        (or_masks ++ [match and_masks with [m] => m | _ => np_all and_masks end])
  end.

Definition _and_or_mask (query_list : list filter_dict)
    (filter_func : filter_dict → result (list (list bool)))
    : result (option (list bool)) :=
  or_masks ← or_masks_loop filter_func query_list [];
  Ok (match or_masks with
      | [] => None
      | [m] => Some m
      | _ => Some (np_any or_masks)
      end).

Inductive axis : Type := ax_columns | ax_index.

(** The dictionary [mapping] of [query_frame]: columns win over index
    levels of the same name. *)
Definition mapping (df : DataFrame) (key : string) : option axis :=
  if bool_decide (key ∈ columns df) then Some ax_columns
  else if bool_decide (Some key ∈ index_names df) then Some ax_index
  else None.

(** The loop of [_filter_func] in [query_frame] that splits the query
    keys into columns and index. *)
Fixpoint split_loop (df : DataFrame) (query : filter_dict)
    (q_columns q_index : filter_dict) : result (filter_dict * filter_dict) :=
  match query with
  | [] => Ok (q_columns, q_index)
  | (key, value) :: query' =>
      match mapping df key with
      | Some ax_columns =>
          split_loop df query' (dict_set key value q_columns) q_index
      | Some ax_index =>
          split_loop df query' q_columns (dict_set key value q_index)
      | None => Err (KeyError key)
      end
  end.

(** [_filter_func] of [query_frame]: the masks by columns, then the
    masks by index. *)
Definition frame_filter_func (df : DataFrame) (query : filter_dict)
    : result (list (list bool)) :=
  q ← split_loop df query [] [];
  by_columns ← mapM (λ kv : string * fvalue,
                       obj ← getitem df kv.1; compare obj kv.2) q.1;
  by_index ← mapM (λ kv : string * fvalue,
                     obj ← get_level_values (index_names df)
                             (row_index <$> rows df) kv.1;
                     compare obj kv.2) q.2;
  Ok (by_columns ++ by_index).

Definition query_frame (df : DataFrame) (query_list : list filter_dict)
    : result DataFrame :=
  mask ← _and_or_mask query_list (frame_filter_func df);
  Ok (match mask with Some m => loc df m | None => df end).

(** [_filter_func] of [query_series] *)
Definition series_filter_func (series : Series) (query : filter_dict)
    : result (list (list bool)) :=
  mapM (λ kv : string * fvalue,
          obj ← get_level_values (s_index_names series)
                  (fst <$> s_rows series) kv.1;
          compare obj kv.2) query.

Definition query_series (series : Series) (query_list : list filter_dict)
    : result Series :=
  mask ← _and_or_mask query_list (series_filter_func series);
  Ok (match mask with Some m => series_loc series m | None => series end).

(** Modelled from the spec: the accessor [df.etl.q] (module
    [blueetl_core.etl] is not part of the sources).  The prefix cache
    delegates row filtering "to the same masking logic", the one of
    [query_frame], on the one-element query list. *)
Definition etl_q (df : DataFrame) (query : filter_dict) : result DataFrame :=
  query_frame df [query].

End filter_algebra.

(** ** [longest_match_count] and [CachedDataFrame] *)

(** The number of matching elements from the beginning of two
    sequences; [eqb] is the [==] of their elements. *)
Fixpoint longest_match_count {A} (eqb : A → A → bool) (iter1 iter2 : list A)
    : nat :=
  match iter1, iter2 with
  | i1 :: iter1', i2 :: iter2' =>
      if negb (eqb i1 i2) then 0 else S (longest_match_count eqb iter1' iter2')
  | _, _ => 0
  end.

Record CachedItem : Type := mkCachedItem {
  ci_df : DataFrame;
  ci_key : string;
  ci_value : fvalue
}.

Record CachedDataFrame : Type := mkCachedDataFrame {
  _df : DataFrame;
  _valid_keys : gset string;
  _stack : list CachedItem;
  _matched : nat
}.

(** The truthy index names: neither [None] nor the empty string. *)
Definition truthy_names (names : list (option string)) : list string :=
  omap (λ n : option string,
          match n with
          | Some s => if bool_decide (s = "") then None else Some s
          | None => None
          end) names.

(** [CachedDataFrame.__init__] *)
Definition init (df : DataFrame) : CachedDataFrame :=
  mkCachedDataFrame df
    (list_to_set (columns df) ∪ list_to_set (truthy_names (index_names df)))
    [] 0.

Definition _longest_keys_count (self : CachedDataFrame) (keys : list string)
    : nat :=
  longest_match_count String.eqb (ci_key <$> _stack self) keys.

Definition _longest_values_count (self : CachedDataFrame)
    (values : list fvalue) : nat :=
  longest_match_count fvalue_eqb (ci_value <$> _stack self) values.

Section cache.
Context `{Engine}.

(** The [while len(self._stack) < len(query)] loop: [todo] holds the
    fields of the query from position [len(self._stack)] on.  An
    exception leaves the stack as extended so far. *)
Fixpoint extend_stack (stack : list CachedItem) (df : DataFrame)
    (todo : filter_dict) : list CachedItem * result DataFrame :=
  match todo with
  | [] => (stack, Ok df)
  | (col, val) :: todo' =>
      match etl_q df [(col, val)] with
      | Ok df' => extend_stack (stack ++ [mkCachedItem df' col val]) df' todo'
      | Err e => (stack, Err e)
      end
  end.

(** [CachedDataFrame.query], read on the contents that the filter
    values have at the time of the call: the object after the call and
    what the call returns or raises.  The call itself changes no
    filter value; [Shared.query] below has the values as the objects
    of the caller that the stack keeps. *)
Definition query (self : CachedDataFrame) (query : filter_dict)
    (ignore_unknown_keys : bool) : CachedDataFrame * result DataFrame :=
  let query :=
    if ignore_unknown_keys
    then filter (λ kv, kv.1 ∈ _valid_keys self) query
    else query in
  let query_keys := keys query in
  let query_values := values query in
  let matched := min (_longest_keys_count self query_keys)
                     (_longest_values_count self query_values) in
  let stack := take matched (_stack self) in
  let df := match last stack with
            | Some item => ci_df item
            | None => _df self
            end in
  let (stack', returned) :=
    extend_stack stack df (drop (length stack) query) in
  (mkCachedDataFrame (_df self) (_valid_keys self) stack' matched, returned).

(** A cache after a sequence of calls, each with its flag, whatever each
    call returned or raised. *)
Definition run_queries (self : CachedDataFrame)
    (calls : list (filter_dict * bool)) : CachedDataFrame :=
  foldl (λ c call, (query c call.1 call.2).1) self calls.

(** Filtering a table by the fields of a query one after the other, in
    the order of the dictionary. *)
Fixpoint filter_in_order (df : DataFrame) (query : filter_dict)
    : result DataFrame :=
  match query with
  | [] => Ok df
  | (key, value) :: query' =>
      df' ← etl_q df [(key, value)];
      filter_in_order df' query'
  end.

End cache.

(** Following the spec: the length of the longest prefix in which, at
    every position, both the key and the value of the query match the
    stack entry at that position. *)
Fixpoint matching_prefix_length (stack : list CachedItem) (query : filter_dict)
    : nat :=
  match stack, query with
  | item :: stack', (key, value) :: query' =>
      if String.eqb (ci_key item) key && fvalue_eqb (ci_value item) value
      then S (matching_prefix_length stack' query')
      else 0
  | _, _ => 0
  end.

(** ** The cache and the objects of the caller *)

(** [CachedItem(df=df, key=col, value=val)] keeps [val], the object
    that the caller passed in the query: a list or an operator mapping
    that the caller changes in place afterwards is changed in the stack
    too.  An object is named by its identity, and a heap gives the
    contents that the objects have at one time. *)
Module Shared.

Definition ident : Type := nat.
Definition heap : Type := ident → fvalue.

(** A query dictionary: keys, and the objects that are its values. *)
Definition object_query : Type := list (string * ident).

Record CachedItem : Type := mkCachedItem {
  ci_df : DataFrame;
  ci_key : string;
  ci_value : ident
}.

Record CachedDataFrame : Type := mkCachedDataFrame {
  _df : DataFrame;
  _valid_keys : gset string;
  _stack : list CachedItem;
  _matched : nat
}.

(** [CachedDataFrame.__init__] *)
Definition init (df : DataFrame) : CachedDataFrame :=
  mkCachedDataFrame df
    (list_to_set (columns df) ∪ list_to_set (truthy_names (index_names df)))
    [] 0.

(** [i1 != i2] on two objects, by the contents they have now. *)
Definition object_eqb (now : heap) (i1 i2 : ident) : bool :=
  fvalue_eqb (now i1) (now i2).

Definition _longest_keys_count (self : CachedDataFrame) (keys : list string)
    : nat :=
  longest_match_count String.eqb (ci_key <$> _stack self) keys.

Definition _longest_values_count (now : heap) (self : CachedDataFrame)
    (values : list ident) : nat :=
  longest_match_count (object_eqb now) (ci_value <$> _stack self) values.

(** A call of [query]: the contents of the objects when it is made,
    the query and the flag.  Between two calls the caller may have
    changed any object. *)
Record call : Type := mkCall {
  at_call : heap;
  asked : object_query;
  flag : bool
}.

Section cache.
Context `{Engine}.

(** The [while len(self._stack) < len(query)] loop; [etl.q] reads the
    contents of [val], the item keeps the object. *)
Fixpoint extend_stack (now : heap) (stack : list CachedItem) (df : DataFrame)
    (todo : object_query) : list CachedItem * result DataFrame :=
  match todo with
  | [] => (stack, Ok df)
  | (col, val) :: todo' =>
      match etl_q df [(col, now val)] with
      | Ok df' =>
          extend_stack now (stack ++ [mkCachedItem df' col val]) df' todo'
      | Err e => (stack, Err e)
      end
  end.

(** [CachedDataFrame.query] at a time when the objects have the
    contents [now]. *)
Definition query (now : heap) (self : CachedDataFrame) (query : object_query)
    (ignore_unknown_keys : bool) : CachedDataFrame * result DataFrame :=
  let query :=
    if ignore_unknown_keys
    then filter (λ kv, kv.1 ∈ _valid_keys self) query
    else query in
  let query_keys := keys query in
  let query_values := values query in
  let matched := min (_longest_keys_count self query_keys)
                     (_longest_values_count now self query_values) in
  let stack := take matched (_stack self) in
  let df := match last stack with
            | Some item => ci_df item
            | None => _df self
            end in
  let (stack', returned) :=
    extend_stack now stack df (drop (length stack) query) in
  (mkCachedDataFrame (_df self) (_valid_keys self) stack' matched, returned).




End cache.

End Shared.




(** ** [smart_concat] *)

Section concat.
Context `{Engine}.

(** [obj.empty] *)
Definition empty (obj : DataFrame) : bool :=
  bool_decide (rows obj = []) || bool_decide (columns obj = []).

(** [''.join(diff)] is defined on strings only; [names_of diff] are the
    names that are joined. *)
Definition names_of (diff : gset (option string)) : gset string :=
  list_to_set (omap id (elements diff)).

Definition _reorder_levels (obj : DataFrame) (order : list (option string))
    : result DataFrame :=
  if negb (length order =? length (index_names obj))
  then Err (LevelsLengthMismatch (length (index_names obj)) (length order))
  else
    let diff : gset (option string) :=
      list_to_set order ∖ list_to_set (index_names obj) in
    if bool_decide (diff ≠ ∅)
    then if bool_decide (None ∈ diff)
         then Err TypeError
         else Err (LevelsNotFound (names_of diff))
    else pd_reorder_levels obj order.

(** [_ordered]: the object, and the value of the variable [order]
    after the call. *)
Definition _ordered (order : option (list (option string))) (obj : DataFrame)
    : result DataFrame * option (list (option string)) :=
  let order' := match order with
                | None => index_names obj
                | Some o => o
                end in
  (if bool_decide (order' = index_names obj) then Ok obj
   else _reorder_levels obj order',
   Some order').

(** [[_ordered(obj) for obj in iterable]] *)
Fixpoint ordered_all (order : option (list (option string)))
    (iterable : list DataFrame) : result (list DataFrame) :=
  match iterable with
  | [] => Ok []
  | obj :: iterable' =>
      let (r, order') := _ordered order obj in
      obj' ← r;
      objects ← ordered_all order' iterable';
      Ok (obj' :: objects)
  end.

Definition smart_concat (iterable : list DataFrame)
    (keys : option (list pyval)) (skip_empty : bool) : result DataFrame :=
  objects ← ordered_all None iterable;
  let objects :=
    if skip_empty && negb (forallb empty objects)
    then filter (λ obj, empty obj = false) objects
    else objects in
  pd_concat objects keys.

End concat.

(** ** The invariant of the cache *)

Section cache_invariant.
Context `{Engine}.

(** The mask of one field of a query on a table: the field is looked
    up among the columns, then among the index levels. *)
Definition field_mask (df : DataFrame) (kv : string * fvalue)
    : result (list bool) :=
  match mapping df kv.1 with
  | Some ax_columns => obj ← getitem df kv.1; compare obj kv.2
  | Some ax_index =>
      obj ← get_level_values (index_names df) (row_index <$> rows df) kv.1;
      compare obj kv.2
  | None => Err (KeyError kv.1)
  end.

(** Every item of the stack holds the table below it (the base table
    for the first item) filtered by the key and value of the item. *)
Fixpoint stack_chain (df : DataFrame) (stack : list CachedItem) : Prop :=
  match stack with
  | [] => True
  | item :: stack' =>
      etl_q df [(ci_key item, ci_value item)] = Ok (ci_df item) ∧
      stack_chain (ci_df item) stack'
  end.

End cache_invariant.

(** An operator mapping used as a filter value is a dictionary. *)
Definition dict_value (v : fvalue) : Prop :=
  match v with
  | FDict d => is_dict d
  | FVal _ => True
  end.

(** A query is a dictionary whose operator mappings are
    dictionaries. *)
Definition well_formed_query (q : filter_dict) : Prop :=
  is_dict q ∧ Forall (λ kv, dict_value kv.2) q.

(** The table on top of a stack: what [query] starts from after the
    stack is cut. *)
Definition top (df : DataFrame) (stack : list CachedItem) : DataFrame :=
  match last stack with
  | Some item => ci_df item
  | None => df
  end.

(** The state of a cache over the table [base] that [query] keeps. *)
Definition cache_ok `{Engine} (base : DataFrame) (self : CachedDataFrame)
    : Prop :=
  _df self = base ∧
  _valid_keys self = _valid_keys (init base) ∧
  stack_chain base (_stack self) ∧
  Forall (λ item, dict_value (ci_value item)) (_stack self).

(** A key that names data of the table: a column, or an index level
    with a name that is not empty. *)
Definition known_key (base : DataFrame) (key : string) : bool :=
  bool_decide (key ∈ columns base) ||
  (negb (String.eqb key "") && bool_decide (Some key ∈ index_names base)).

(** The fields of a query that are asked of the table: all of them, or
    with [ignore_unknown_keys] the ones with a known key. *)
Definition asked_query (base : DataFrame) (query : filter_dict)
    (ignore_unknown_keys : bool) : filter_dict :=
  if ignore_unknown_keys
  then filter (λ kv, known_key base kv.1 = true) query
  else query.

(** ** Well-formed filters and the restrictiveness order *)

(** The operator names [is_subfilter] accepts in a filter value: ["eq"]
    and the keys of [operators]. *)
Definition subfilter_operators : list string :=
  ["eq"; "ne"; "le"; "lt"; "ge"; "gt"; "isin"].

(** A list of hashable values: integers and strings. *)
Definition scalar_list (v : pyval) : Prop :=
  ∃ l, v = PList l ∧ forallb hashable l = true.

(** An operator mapping is a dictionary, its ["eq"] operand is a
    scalar and its ["isin"] operand a list of scalars; a plain list
    holds scalars. *)
Definition well_typed_value (v : fvalue) : Prop :=
  match v with
  | FVal (PList l) => forallb hashable l = true
  | FVal _ => True
  | FDict d =>
      is_dict d ∧
      (∀ e, dict_get "eq" d = Some e → hashable e = true) ∧
      (∀ c, dict_get "isin" d = Some c → scalar_list c)
  end.

Definition well_formed (f : filter_dict) : Prop :=
  is_dict f ∧ Forall (λ kv, well_typed_value kv.2) f.

(** The operator names of a filter value all belong to [ops]. *)
Definition uses_only (ops : list string) (v : fvalue) : Prop :=
  match v with
  | FDict d => is_dict d ∧ ∀ op, op ∈ keys d → op ∈ ops
  | FVal _ => True
  end.

(** A field of [right] that the loop of [is_subfilter] goes past: its
    key is a key of [left], the two values normalize, and either the
    call is strict and the normalized values are equal, or [_is_subdict]
    returns [True]. *)
Definition field_passes (left : filter_dict) (strict : bool)
    (kv : string * fvalue) : Prop :=
  ∃ lv d1 d2,
    dict_get kv.1 left = Some lv ∧ _to_dict lv = Ok d1 ∧ _to_dict kv.2 = Ok d2 ∧
    if strict && dict_eqb d1 d2 then True else _is_subdict d1 d2 = Ok true.

(** A field of [right] whose normalized values are compared by
    [_is_subdict], one of them with a key that [operators] does not
    have. *)
Definition field_has_invalid_keys (left : filter_dict) (strict : bool)
    (kv : string * fvalue) : Prop :=
  ∃ lv d1 d2,
    dict_get kv.1 left = Some lv ∧ _to_dict lv = Ok d1 ∧ _to_dict kv.2 = Ok d2 ∧
    strict && dict_eqb d1 d2 = false ∧
    valid_keys d1 && valid_keys d2 = false.

(** Following the spec: the order on bounds, on integers and on
    strings. *)
Definition bound_le (a b : pyval) : Prop :=
  match a, b with
  | PInt x, PInt y => (x ≤ y)%Z
  | PStr s, PStr t => String.compare s t ≠ Gt
  | _, _ => False
  end.

(** Following the spec: the operand [a] of the left filter is at least
    as restrictive as the operand [b] of the right filter, per
    operator. *)
Inductive at_least_as_restrictive : string → pyval → pyval → Prop :=
  | restrictive_ne a :
      at_least_as_restrictive "ne" a a
  | restrictive_le a b :
      bound_le a b → at_least_as_restrictive "le" a b
  | restrictive_lt a b :
      bound_le a b → at_least_as_restrictive "lt" a b
  | restrictive_ge a b :
      bound_le b a → at_least_as_restrictive "ge" a b
  | restrictive_gt a b :
      bound_le b a → at_least_as_restrictive "gt" a b
  | restrictive_isin la lb :
      la ⊆ lb → at_least_as_restrictive "isin" (PList la) (PList lb).

(** Two bounds of one scalar type. *)
Definition comparable (a b : pyval) : Prop :=
  match a, b with
  | PInt _, PInt _ | PStr _, PStr _ => True
  | _, _ => False
  end.

(** The operands of two normalized filters can be compared: bounds of
    one operator have one scalar type, ["isin"] operands are lists of
    scalars. *)
Definition comparable_operands (d1 d2 : list (string * pyval)) : Prop :=
  (∀ op a b, op ∈ ["le"; "lt"; "ge"; "gt"] →
     dict_get op d1 = Some a → dict_get op d2 = Some b → comparable a b) ∧
  (∀ a b, dict_get "isin" d1 = Some a → dict_get "isin" d2 = Some b →
     scalar_list a ∧ scalar_list b).

(** ** A reference engine *)

(** The comparison operators on one cell, for integer and string cells;
    regular expressions are outside this instance. *)
Definition cell_op (op : operator) (cell operand : pyval) : result bool :=
  match op with
  | op_eq => Ok (py_eqb cell operand)
  | op_ne => Ok (negb (py_eqb cell operand))
  | op_le => py_le cell operand
  | op_lt => b ← py_ge cell operand; Ok (negb b)
  | op_ge => py_ge cell operand
  | op_gt => b ← py_le cell operand; Ok (negb b)
  | op_isin =>
      match operand with
      | PList l => Ok (py_in_list cell l)
      | _ => Err TypeError
      end
  | op_regex => Err TypeError
  end.

Definition cellwise_op (op : operator) (obj : list pyval) (operand : pyval)
    : result (list bool) :=
  mapM (λ cell, cell_op op cell operand) obj.

(** Reordering the index labels of every row by level name. *)
Definition reorder_by_name (obj : DataFrame) (order : list (option string))
    : result DataFrame :=
  js ← mapM (λ name, match position name (index_names obj) with
                     | Some j => Ok j
                     | None => Err (KeyError "")
                     end) order;
  Ok (mkDataFrame order (columns obj)
        ((λ r, mkRow ((λ j, default missing (row_index r !! j)) <$> js)
                     (row_data r)) <$> rows obj)).

(** Concatenation along the rows. *)
Definition concat_rows (objects : list DataFrame) (keys : option (list pyval))
    : result DataFrame :=
  match objects with
  | [] => Err TypeError
  | obj :: _ =>
      Ok (mkDataFrame (index_names obj) (columns obj)
            (concat (rows <$> objects)))
  end.

(** ** Sample tables *)

(** The table of [test_andor_mask]. *)
Definition andor_table : DataFrame :=
  mkDataFrame [None] ["col1"; "col2"]
    [ mkRow [PInt 0] [PInt 0; PInt 100];
      mkRow [PInt 1] [PInt 10; PInt 110];
      mkRow [PInt 2] [PInt 11; PInt 111];
      mkRow [PInt 3] [PInt 20; PInt 111];
      mkRow [PInt 4] [PInt 21; PInt 111] ].

(** A Series with one index level ["col1"]. *)
Definition andor_series : Series :=
  mkSeries [Some "col1"]
    [ ([PInt 0], PInt 100);
      ([PInt 10], PInt 110);
      ([PInt 11], PInt 111) ].

(** Two tables indexed by two levels: the first level of the first
    table is unnamed, and its second level ["x"] is not a level of the
    second table. *)
Definition unnamed_level_table : DataFrame :=
  mkDataFrame [None; Some "x"] ["v0"]
    [ mkRow [PInt 10; PInt 11] [PInt 1] ].

Definition named_levels_table : DataFrame :=
  mkDataFrame [Some "a"; Some "b"] ["v0"]
    [ mkRow [PInt 20; PInt 21] [PInt 2] ].

(** The table of [test_cached_dataframe], with its default index. *)
Definition simulations_table : DataFrame :=
  mkDataFrame [None] ["simulation_id"; "circuit_id"; "window"; "trial"]
    [ mkRow [PInt 0] [PInt 0; PInt 0; PStr "w0"; PInt 0];
      mkRow [PInt 1] [PInt 0; PInt 0; PStr "w0"; PInt 1];
      mkRow [PInt 2] [PInt 0; PInt 0; PStr "w1"; PInt 0];
      mkRow [PInt 3] [PInt 0; PInt 0; PStr "w1"; PInt 1];
      mkRow [PInt 4] [PInt 1; PInt 0; PStr "w0"; PInt 0];
      mkRow [PInt 5] [PInt 1; PInt 0; PStr "w0"; PInt 1];
      mkRow [PInt 6] [PInt 1; PInt 0; PStr "w1"; PInt 0];
      mkRow [PInt 7] [PInt 1; PInt 0; PStr "w1"; PInt 1] ].

(** The queries of [test_cached_dataframe]. *)
Definition window_query : filter_dict :=
  [ ("simulation_id", FVal (PInt 1));
    ("circuit_id", FVal (PInt 0));
    ("window", FVal (PStr "w0")) ].

Definition trial_query (trial : Z) : filter_dict :=
  window_query ++ [("trial", FVal (PInt trial))].




(** Sample filters for [is_subfilter]. *)
Definition bounds_filter : filter_dict :=
  [ ("key", FDict [("le", PInt 3); ("ge", PInt 1)]);
    ("other", FVal (PInt 1));
    ("third", FDict [("eq", PInt 1); ("isin", PList [PInt 1; PInt 2])]) ].

Definition regex_filter (pattern : string) : filter_dict :=
  [ ("key", FDict [("regex", PStr pattern)]) ].

Definition unknown_operator_filter : filter_dict :=
  [ ("key", FDict [("foo", PInt 1)]) ].

(** ** Relations used by the further properties *)

(** Two filters with the same fields in the same order, the values of
    which have the same normal form. *)
Definition same_normal_forms (f f' : filter_dict) : Prop :=
  Forall2 (λ kv kv', kv.1 = kv'.1 ∧ _to_dict kv.2 = _to_dict kv'.2) f f'.

(** A stack item matches a field of a query: same key, equal value. *)
Definition item_matches (item : CachedItem) (kv : string * fvalue) : Prop :=
  ci_key item = kv.1 ∧ fvalue_eqb (ci_value item) kv.2 = true.

Section concat_order_defs.
Context `{Engine}.

(** The objects of [smart_concat] after [_ordered]: an object with the
    level names of the first one in their order is kept, any other one
    goes through [reorder_levels]. *)
Definition kept_or_reordered (first obj : DataFrame) : result DataFrame :=
  if bool_decide (index_names first = index_names obj) then Ok obj
  else pd_reorder_levels obj (index_names first).

(** The objects that [smart_concat] passes to [concat]. *)
Definition without_empty (skip_empty : bool) (objects : list DataFrame)
    : list DataFrame :=
  if skip_empty && negb (forallb empty objects)
  then filter (λ obj, empty obj = false) objects
  else objects.

End concat_order_defs.

(** The tables of the [smart_concat] tests: two levels [i0], [i1]; the
    same levels in the other order; the first level renamed; a third
    level added. *)
Definition levels_i0_i1 : DataFrame :=
  mkDataFrame [Some "i0"; Some "i1"] ["v0"]
    [ mkRow [PStr "a"; PStr "c"] [PInt 1];
      mkRow [PStr "a"; PStr "d"] [PInt 2] ].

Definition levels_i1_i0 : DataFrame :=
  mkDataFrame [Some "i1"; Some "i0"] ["v0"]
    [ mkRow [PStr "c"; PStr "a"] [PInt 3];
      mkRow [PStr "d"; PStr "a"] [PInt 4] ].


Definition levels_i0_i1_i2 : DataFrame :=
  mkDataFrame [Some "i0"; Some "i1"; Some "i2"] ["v0"]
    [ mkRow [PStr "a"; PStr "c"; PInt 999] [PInt 3] ].

Definition no_rows_i0_i1 : DataFrame :=
  mkDataFrame [Some "i0"; Some "i1"] ["v0"] [].

(** * Properties *)

(** ** Values and dictionaries *)

(** Induction over values, with the hypothesis on every element of a
    list. *)
Lemma pyval_ind (P : pyval → Prop) :
  (∀ z, P (PInt z)) →
  (∀ s, P (PStr s)) →
  (∀ l, Forall P l → P (PList l)) →
  ∀ v, P v.
Proof.
  intros Hint Hstr Hlist.
  fix IH 1. intros [z|s|l].
  - apply Hint.
  - apply Hstr.
  - apply Hlist. induction l as [|x l IHl]; constructor.
    + apply IH.
    + apply IHl.
Qed.

Lemma py_eqb_eq a b : py_eqb a b = true ↔ a = b.
Proof.
  revert b. induction a as [x|s|l IH] using pyval_ind; intros [y|t|k]; simpl;
    try (split; [discriminate|congruence]).
  - rewrite Z.eqb_eq. split; congruence.
  - rewrite String.eqb_eq. split; congruence.
  - revert k. induction IH as [|a l Ha _ IHl]; intros [|b k];
      try (split; [discriminate|congruence]); [done|].
    rewrite andb_true_iff, Ha, IHl. split.
    + intros [-> [= ->]]. done.
    + intros [= -> ->]. done.
Qed.

Lemma py_eqb_refl a : py_eqb a a = true.
Proof. by apply py_eqb_eq. Qed.

Lemma py_eqb_neq a b : py_eqb a b = false ↔ a ≠ b.
Proof. rewrite <-py_eqb_eq. destruct (py_eqb a b); naive_solver. Qed.

#[global] Instance pyval_eq_dec : EqDecision pyval.
Proof.
  intros a b. destruct (py_eqb a b) eqn:E.
  - left. by apply py_eqb_eq.
  - right. by apply py_eqb_neq.
Defined.

Lemma string_leb_refl s : String.leb s s = true.
Proof.
  unfold String.leb.
  destruct (String.compare s s) eqn:E; try done.
  pose proof (String.compare_antisym s s) as Ha. rewrite E in Ha. done.
Qed.

Lemma py_le_refl a : py_le a a = Ok true.
Proof.
  induction a as [x|s|l IH] using pyval_ind; simpl.
  - by rewrite Z.leb_refl.
  - by rewrite string_leb_refl.
  - induction l as [|a l IHl]; [done|].
    rewrite py_eqb_refl. apply IHl. by inversion IH.
Qed.

Lemma py_ge_refl a : py_ge a a = Ok true.
Proof.
  induction a as [x|s|l IH] using pyval_ind; simpl.
  - by rewrite Z.leb_refl.
  - by rewrite string_leb_refl.
  - induction l as [|a l IHl]; [done|].
    rewrite py_eqb_refl. apply IHl. by inversion IH.
Qed.

Lemma py_in_list_elem x l : py_in_list x l = true ↔ x ∈ l.
Proof.
  unfold py_in_list. rewrite existsb_exists. split.
  - intros (y & Hy & Heq). apply py_eqb_eq in Heq as ->.
    by apply list_elem_of_In.
  - intros Hx. exists x. split; [by apply list_elem_of_In|apply py_eqb_refl].
Qed.

Section dict_facts.
Context {V : Type}.
Implicit Types d : list (string * V).

Lemma dict_get_Some_elem key v d : dict_get key d = Some v → (key, v) ∈ d.
Proof.
  induction d as [|[k w] d IH]; simpl; [done|].
  destruct (String.eqb_spec key k) as [->|Hne].
  - intros [= ->]. left.
  - intros Hg. right. by apply IH.
Qed.

Lemma dict_get_None key d : dict_get key d = None ↔ key ∉ keys d.
Proof.
  unfold keys. induction d as [|[k w] d IH]; simpl.
  - split; [intros _; apply not_elem_of_nil|done].
  - rewrite not_elem_of_cons.
    destruct (String.eqb_spec key k) as [->|Hne]; [|tauto].
    split; [done|]. intros [? _]. done.
Qed.

Lemma dict_get_is_Some key d : is_Some (dict_get key d) ↔ key ∈ keys d.
Proof.
  rewrite <-not_eq_None_Some, dict_get_None.
  destruct (decide (key ∈ keys d)); naive_solver.
Qed.

Lemma dict_get_elem key v d :
  is_dict d → (key, v) ∈ d → dict_get key d = Some v.
Proof.
  unfold is_dict, keys. induction d as [|[k w] d IH]; simpl.
  - intros _ Hin. by apply elem_of_nil in Hin.
  - intros [Hk Hd]%NoDup_cons [[= -> ->]|Hin]%elem_of_cons.
    + by rewrite String.eqb_refl.
    + destruct (String.eqb_spec key k) as [->|Hne]; [|by apply IH].
      destruct Hk. apply list_elem_of_fmap. by exists (k, v).
Qed.

Lemma dict_has_true key d : dict_has key d = true ↔ key ∈ keys d.
Proof.
  unfold dict_has. rewrite bool_decide_eq_true. apply dict_get_is_Some.
Qed.

Lemma dict_has_false key d : dict_has key d = false ↔ key ∉ keys d.
Proof.
  unfold dict_has. rewrite bool_decide_eq_false, dict_get_is_Some. done.
Qed.

End dict_facts.

(** ** The matched count of [CachedDataFrame.query] *)

Lemma longest_match_count_nil_r {A} (eqb : A → A → bool) l :
  longest_match_count eqb l [] = 0.
Proof. by destruct l. Qed.

Lemma matching_prefix_length_le stack query :
  matching_prefix_length stack query ≤ length stack ∧
  matching_prefix_length stack query ≤ length query.
Proof.
  revert query. induction stack as [|item stack IH]; intros [|[k v] q]; simpl;
    try lia.
  destruct (_ && _); simpl; [|lia]. specialize (IH q). lia.
Qed.

(** C2. The matched count of [query], the minimum of the two
    [longest_match_count]s over keys and over values, is the length of
    the longest prefix in which key and value both match the stack entry
    at every position: every position below it matches in key and in
    value, and a position where the key or the value differs bounds
    it. *)
Theorem matched_is_joint_prefix (self : CachedDataFrame) (query : filter_dict) :
  let matched := min (_longest_keys_count self (keys query))
                     (_longest_values_count self (values query)) in
  matched = matching_prefix_length (_stack self) query ∧
  (∀ i, i < matched →
     ∃ item kv, _stack self !! i = Some item ∧ query !! i = Some kv ∧
       ci_key item = kv.1 ∧ fvalue_eqb (ci_value item) kv.2 = true) ∧
  (∀ i item kv, _stack self !! i = Some item → query !! i = Some kv →
     ci_key item ≠ kv.1 ∨ fvalue_eqb (ci_value item) kv.2 = false →
     matched ≤ i).
Proof.
  unfold _longest_keys_count, _longest_values_count, keys, values.
  generalize (_stack self) as stack. clear self. intros stack.
  revert query. induction stack as [|item stack IH]; intros [|[k v] q]; csimpl;
    try (split_and!; [done|lia|by intros []]).
  destruct (IH q) as (IH1 & IH2 & IH3). clear IH.
  destruct (String.eqb_spec (ci_key item) k) as [Hk|Hk]; csimpl;
    [destruct (fvalue_eqb (ci_value item) v) eqn:Hv; csimpl|];
    try (split_and!; [done|lia|lia]).
  split_and!.
  - rewrite <-IH1. lia.
  - intros [|i] Hi; csimpl.
    + exists item, (k, v). done.
    + apply IH2. lia.
  - intros [|i] it kv; csimpl.
    + intros [= ->] [= <-]; csimpl. intros [?|?]; [done|congruence].
    + intros H1 H2 H3. specialize (IH3 i it kv H1 H2 H3). lia.
Qed.

(** ** The empty query *)

Section empty_query.
Context `{Engine}.

Lemma query_empty (self : CachedDataFrame) (ignore_unknown_keys : bool) :
  query self [] ignore_unknown_keys =
    (mkCachedDataFrame (_df self) (_valid_keys self) [] 0, Ok (_df self)).
Proof.
  unfold query.
  assert (filter (λ kv : string * fvalue, kv.1 ∈ _valid_keys self) [] = [])
    as Hnil by done.
  destruct ignore_unknown_keys; rewrite ?Hnil; simpl;
    unfold _longest_keys_count, _longest_values_count;
    rewrite !longest_match_count_nil_r; done.
Qed.

Lemma run_queries_base self calls :
  _df (run_queries self calls) = _df self ∧
  _valid_keys (run_queries self calls) = _valid_keys self.
Proof.
  revert self. induction calls as [|[q i] calls IH]; intros self; [done|].
  change (run_queries self ((q, i) :: calls))
    with (run_queries (query self q i).1 calls).
  destruct (IH (query self q i).1) as [-> ->].
  unfold query. by destruct (extend_stack _ _ _).
Qed.

(** C9. [query] with an empty filter dictionary, on a cache over a
    base table after any sequence of calls and with either flag,
    empties the stack and returns the base table itself. *)
Theorem query_empty_resets (base : DataFrame)
    (calls : list (filter_dict * bool)) (ignore_unknown_keys : bool) :
  query (run_queries (init base) calls) [] ignore_unknown_keys =
    (mkCachedDataFrame base (_valid_keys (init base)) [] 0, Ok base).
Proof.
  rewrite query_empty.
  by destruct (run_queries_base (init base) calls) as [-> ->].
Qed.

End empty_query.

(** ** [is_subfilter] against the empty filter *)

Lemma size_list_to_set_pos (l : list string) :
  0 < size (list_to_set (C := gset string) l) ↔ 0 < length l.
Proof.
  destruct l as [|x l].
  - change (list_to_set (C := gset string) []) with (∅ : gset string).
    rewrite size_empty. done.
  - split; [simpl; lia|]. intros _.
    assert (size (list_to_set (C := gset string) (x :: l)) ≠ 0); [|lia].
    apply size_non_empty_iff. set_solver.
Qed.

(** C10. Every filter is a sub-filter of the empty filter; strictly so
    exactly when it has at least one field. *)
Theorem is_subfilter_empty_right (f : filter_dict) :
  is_subfilter f [] false = Ok true ∧
  is_subfilter f [] true = Ok (bool_decide (0 < length f)).
Proof.
  unfold is_subfilter; simpl. split; [done|]. f_equal.
  apply bool_decide_ext. unfold keys.
  rewrite size_list_to_set_pos, length_fmap. done.
Qed.

(** ** The per-operator check of [_is_subdict] *)

Lemma py_le_bound a b :
  comparable a b → ∃ r, py_le a b = Ok r ∧ (r = true ↔ bound_le a b).
Proof.
  destruct a as [x|s|l], b as [y|t|k]; simpl; try done; intros _.
  - eexists. split; [done|]. apply Z.leb_le.
  - eexists. split; [done|]. unfold String.leb.
    destruct (String.compare s t); naive_solver.
Qed.

Lemma py_ge_bound a b :
  comparable a b → ∃ r, py_ge a b = Ok r ∧ (r = true ↔ bound_le b a).
Proof.
  destruct a as [x|s|l], b as [y|t|k]; simpl; try done; intros _.
  - eexists. split; [done|]. apply Z.leb_le.
  - eexists. split; [done|]. unfold String.leb.
    destruct (String.compare t s); naive_solver.
Qed.

Lemma forallb_in_list_subseteq la lb :
  forallb (λ x, py_in_list x lb) la = true ↔ la ⊆ lb.
Proof.
  rewrite forallb_forall. split.
  - intros Hall x Hx. apply py_in_list_elem, Hall. by apply list_elem_of_In.
  - intros Hsub x Hx. apply py_in_list_elem, Hsub. by apply list_elem_of_In.
Qed.

Lemma py_issubset_lists la lb :
  forallb hashable la = true → forallb hashable lb = true →
  py_issubset (PList la) (PList lb) = Ok (forallb (λ x, py_in_list x lb) la).
Proof. intros Ha Hb. unfold py_issubset; simpl. by rewrite Ha, Hb. Qed.

(** The loop of [_is_subdict]: when every operation that is applied
    returns, the loop returns, and the set it returns is empty exactly
    when the set it starts from is empty and every operator of [d2] is
    in [d1] with the operation satisfied. *)
Lemma unmatched_loop_spec ops d1 d2 U :
  (∀ op f a b, (op, f) ∈ ops → dict_get op d1 = Some a →
               dict_get op d2 = Some b → ∃ r, f a b = Ok r) →
  ∃ U', unmatched_loop ops d1 d2 U = Ok U' ∧
    (U' = ∅ ↔ U = ∅ ∧
       ∀ op f b, (op, f) ∈ ops → dict_get op d2 = Some b →
                 ∃ a, dict_get op d1 = Some a ∧ f a b = Ok true).
Proof.
  revert U. induction ops as [|[op f] ops IH]; intros U Hok; simpl.
  - exists U. split; [done|]. split; [|by intros [-> _]].
    intros ->. split; [done|]. intros ??? Hin. by apply elem_of_nil in Hin.
  - assert (∀ op f a b, (op, f) ∈ ops → dict_get op d1 = Some a →
             dict_get op d2 = Some b → ∃ r, f a b = Ok r) as Hok'.
    { intros ???? Hin. apply Hok. by right. }
    destruct (dict_get op d2) as [b|] eqn:H2.
    + destruct (dict_get op d1) as [a|] eqn:H1.
      * destruct (Hok op f a b) as [r Hr]; [left|done|done|].
        rewrite Hr. simpl.
        destruct (IH (if r then U else {[op]} ∪ U) Hok') as (U' & -> & HU').
        exists U'. split; [done|]. rewrite HU'. clear HU' IH. split.
        -- intros [HU Hall]. destruct r; [|set_solver].
           split; [done|]. intros op' f' b' [[= -> ->]|Hin]%elem_of_cons Hb'.
           ++ exists a. split; [done|]. congruence.
           ++ by eapply Hall.
        -- intros [-> Hall].
           destruct (Hall op f b) as (a' & Ha' & Hf); [left|done|].
           assert (r = true) as -> by congruence.
           split; [done|]. intros op' f' b' Hin. apply Hall. by right.
      * destruct (IH ({[op]} ∪ U) Hok') as (U' & -> & HU').
        exists U'. split; [done|]. rewrite HU'. clear HU' IH. split.
        -- intros [HU _]. set_solver.
        -- intros [_ Hall].
           destruct (Hall op f b) as (a' & Ha' & _); [left|done|]. congruence.
    + destruct (IH U Hok') as (U' & -> & HU').
      exists U'. split; [done|]. rewrite HU'. clear HU' IH. split.
      * intros [-> Hall]. split; [done|].
        intros op' f' b' [[= -> ->]|Hin]%elem_of_cons Hb'; [congruence|].
        by eapply Hall.
      * intros [-> Hall]. split; [done|]. intros op' f' b' Hin.
        apply Hall. by right.
Qed.

Lemma valid_keys_get d op v :
  valid_keys d = true → dict_get op d = Some v → ∃ f, (op, f) ∈ operators.
Proof.
  unfold valid_keys. rewrite forallb_forall. intros Hall Hg.
  assert (op ∈ keys d) as Hin by (apply dict_get_is_Some; eauto).
  apply list_elem_of_In, Hall in Hin.
  unfold dict_has in Hin. apply bool_decide_eq_true in Hin as [f Hf].
  exists f. by apply dict_get_Some_elem.
Qed.

Lemma operators_return d1 d2 :
  comparable_operands d1 d2 →
  ∀ op f a b, (op, f) ∈ operators → dict_get op d1 = Some a →
              dict_get op d2 = Some b → ∃ r, f a b = Ok r.
Proof.
  intros [Hb Hi] op f a b Hin H1 H2. unfold operators in Hin.
  repeat (apply elem_of_cons in Hin as [[= -> ->]|Hin]);
    [| | | | | |by apply elem_of_nil in Hin].
  - by eexists.
  - destruct (py_le_bound a b) as (r & ? & _); [|by eexists].
    eapply (Hb "le"); [set_solver|done..].
  - destruct (py_le_bound a b) as (r & ? & _); [|by eexists].
    eapply (Hb "lt"); [set_solver|done..].
  - destruct (py_ge_bound a b) as (r & ? & _); [|by eexists].
    eapply (Hb "ge"); [set_solver|done..].
  - destruct (py_ge_bound a b) as (r & ? & _); [|by eexists].
    eapply (Hb "gt"); [set_solver|done..].
  - destruct (Hi a b H1 H2) as [(la & -> & Hla) (lb & -> & Hlb)].
    rewrite py_issubset_lists by done. by eexists.
Qed.

Lemma operators_restrictive d1 d2 op a b :
  comparable_operands d1 d2 →
  dict_get op d1 = Some a → dict_get op d2 = Some b →
  (∃ f, (op, f) ∈ operators ∧ f a b = Ok true) ↔
  at_least_as_restrictive op a b.
Proof.
  intros [Hb Hi] H1 H2. split.
  - intros (f & Hin & Hf). unfold operators in Hin.
    repeat (apply elem_of_cons in Hin as [[= -> ->]|Hin]);
      [| | | | | |by apply elem_of_nil in Hin].
    + injection Hf as Hf. apply py_eqb_eq in Hf as ->. constructor.
    + constructor. destruct (py_le_bound a b) as (r & Hr & <-); [|congruence].
      eapply (Hb "le"); [set_solver|done..].
    + constructor. destruct (py_le_bound a b) as (r & Hr & <-); [|congruence].
      eapply (Hb "lt"); [set_solver|done..].
    + constructor. destruct (py_ge_bound a b) as (r & Hr & <-); [|congruence].
      eapply (Hb "ge"); [set_solver|done..].
    + constructor. destruct (py_ge_bound a b) as (r & Hr & <-); [|congruence].
      eapply (Hb "gt"); [set_solver|done..].
    + destruct (Hi a b H1 H2) as [(la & -> & Hla) (lb & -> & Hlb)].
      rewrite py_issubset_lists in Hf by done. injection Hf as Hf.
      constructor. by apply forallb_in_list_subseteq.
  - intros Hr. destruct Hr as [a|a b Hab|a b Hab|a b Hab|a b Hab|la lb Hsub].
    + eexists. split; [apply list_elem_of_lookup; by exists 0|].
      simpl. by rewrite py_eqb_refl.
    + exists py_le. split; [apply list_elem_of_lookup; by exists 1|].
      destruct (py_le_bound a b) as (r & -> & Hr).
      { eapply (Hb "le"); [set_solver|done..]. }
      f_equal. by apply Hr.
    + exists py_le. split; [apply list_elem_of_lookup; by exists 2|].
      destruct (py_le_bound a b) as (r & -> & Hr).
      { eapply (Hb "lt"); [set_solver|done..]. }
      f_equal. by apply Hr.
    + exists py_ge. split; [apply list_elem_of_lookup; by exists 3|].
      destruct (py_ge_bound a b) as (r & -> & Hr).
      { eapply (Hb "ge"); [set_solver|done..]. }
      f_equal. by apply Hr.
    + exists py_ge. split; [apply list_elem_of_lookup; by exists 4|].
      destruct (py_ge_bound a b) as (r & -> & Hr).
      { eapply (Hb "gt"); [set_solver|done..]. }
      f_equal. by apply Hr.
    + exists py_issubset. split; [apply list_elem_of_lookup; by exists 5|].
      destruct (Hi _ _ H1 H2) as [(la' & [= <-] & Hla) (lb' & [= <-] & Hlb)].
      rewrite py_issubset_lists by done. f_equal.
      by apply forallb_in_list_subseteq.
Qed.

(** C4. On two normalized filter values whose operands can be compared,
    [_is_subdict] returns, and it returns [True] exactly when every
    operator of the right value is in the left value with an operand at
    least as restrictive: equal for [ne]; left bound <= right bound for
    [le] and for [lt] alike; left bound >= right bound for [ge] and for
    [gt] alike; a subset of the candidates for [isin]. *)
Theorem is_subdict_restrictiveness (d1 d2 : list (string * pyval)) :
  valid_keys d1 = true → valid_keys d2 = true →
  comparable_operands d1 d2 →
  ∃ r, _is_subdict d1 d2 = Ok r ∧
    (r = true ↔
     ∀ op b, dict_get op d2 = Some b →
       ∃ a, dict_get op d1 = Some a ∧ at_least_as_restrictive op a b).
Proof.
  intros Hv1 Hv2 Hcmp. unfold _is_subdict. rewrite Hv1, Hv2. cbn [negb].
  destruct (unmatched_loop_spec operators d1 d2 ∅ (operators_return d1 d2 Hcmp))
    as (U & -> & HU). cbn [mbind result_bind].
  eexists. split; [done|].
  rewrite bool_decide_eq_true, size_empty_iff. unfold_leibniz. rewrite HU.
  clear HU. split.
  - intros [_ Hall] op b Hb.
    destruct (valid_keys_get d2 op b Hv2 Hb) as [f Hf].
    destruct (Hall op f b Hf Hb) as (a & Ha & Hfa).
    exists a. split; [done|].
    eapply operators_restrictive; eauto.
  - intros Hall. split; [done|]. intros op f b Hin Hb.
    destruct (Hall op b Hb) as (a & Ha & Hr). exists a. split; [done|].
    eapply operators_restrictive in Hr as (f' & Hin' & Hf'); [|done..].
    assert (f = f') as ->; [|done].
    clear -Hin Hin'. unfold operators in *.
    repeat (apply elem_of_cons in Hin as [[= -> ->]|Hin]);
      [| | | | | |by apply elem_of_nil in Hin];
      repeat (apply elem_of_cons in Hin' as [[= <-]|Hin']);
      try done; by apply elem_of_nil in Hin'.
Qed.

(** ** Normalization *)

Section dict_update_facts.
Context {V : Type}.
Implicit Types d : list (string * V).

Lemma dict_get_set key key' v d :
  dict_get key' (dict_set key v d) =
    if String.eqb key' key then Some v else dict_get key' d.
Proof.
  induction d as [|[k w] d IH]; simpl.
  - done.
  - destruct (String.eqb_spec key k) as [->|Hne]; simpl.
    + by destruct (String.eqb_spec key' k).
    + rewrite IH. destruct (String.eqb_spec key' k) as [->|?]; [|done].
      destruct (String.eqb_spec k key); [congruence|done].
Qed.

Lemma dict_get_pop_ne key key' d :
  key' ≠ key → dict_get key' (dict_pop key d) = dict_get key' d.
Proof.
  intros Hne. induction d as [|[k w] d IH]; simpl; [done|].
  destruct (String.eqb_spec key k) as [->|Hk]; simpl.
  - by destruct (String.eqb_spec key' k).
  - by rewrite IH.
Qed.

Lemma keys_dict_set key v d :
  keys (dict_set key v d) = if dict_has key d then keys d else keys d ++ [key].
Proof.
  unfold keys, dict_has. induction d as [|[k w] d IH]; csimpl; [done|].
  destruct (String.eqb_spec key k) as [->|Hk]; csimpl.
  - done.
  - rewrite IH. by destruct (bool_decide _).
Qed.

Lemma keys_dict_pop_sub key d : keys (dict_pop key d) ⊆ keys d.
Proof.
  unfold keys. induction d as [|[k w] d IH]; csimpl; [done|].
  destruct (String.eqb key k); csimpl; set_solver.
Qed.

Lemma keys_dict_pop key d :
  is_dict d → ∀ k, k ∈ keys (dict_pop key d) ↔ k ∈ keys d ∧ k ≠ key.
Proof.
  unfold is_dict, keys. induction d as [|[k w] d IH]; csimpl; intros Hnd k'.
  - set_solver.
  - apply NoDup_cons in Hnd as [Hk Hnd].
    destruct (String.eqb_spec key k) as [->|Hne]; csimpl.
    + set_solver.
    + rewrite elem_of_cons, IH by done. set_solver.
Qed.

Lemma is_dict_pop key d : is_dict d → is_dict (dict_pop key d).
Proof.
  unfold is_dict, keys. induction d as [|[k w] d IH]; csimpl; [done|].
  intros [Hk Hnd]%NoDup_cons.
  destruct (String.eqb_spec key k) as [->|Hne]; csimpl; [done|].
  apply NoDup_cons. split; [|by apply IH].
  intros Hin. apply Hk. by apply (keys_dict_pop_sub key d).
Qed.

Lemma is_dict_set key v d : is_dict d → is_dict (dict_set key v d).
Proof.
  unfold is_dict. rewrite keys_dict_set. intros Hnd.
  destruct (dict_has key d) eqn:Hh; [done|].
  apply dict_has_false in Hh. apply NoDup_app. split_and!; [done| |].
  - intros x Hx [->|Hn]%elem_of_cons; [done|]. by apply elem_of_nil in Hn.
  - apply NoDup_singleton.
Qed.

End dict_update_facts.

Lemma dict_eqb_refl d : is_dict d → dict_eqb d d = true.
Proof.
  intros Hd. unfold dict_eqb. rewrite Nat.eqb_refl. simpl.
  apply forallb_forall. intros [k v] Hin%list_elem_of_In. simpl.
  rewrite (dict_get_elem k v d Hd Hin). apply py_eqb_refl.
Qed.

(** What [_to_dict] returns on a well-typed filter value. *)
Lemma to_dict_well_typed v :
  well_typed_value v →
  ∃ nd, _to_dict v = Ok nd ∧ is_dict nd ∧
        (∀ c, dict_get "isin" nd = Some c → scalar_list c).
Proof.
  destruct v as [[z|s|l]|d]; simpl.
  - intros _. eexists. split_and!; [done|by apply NoDup_singleton|].
    intros c [= <-]. by eexists.
  - intros _. eexists. split_and!; [done|by apply NoDup_singleton|].
    intros c [= <-]. by eexists.
  - intros Hl. eexists. split_and!; [done|by apply NoDup_singleton|].
    intros c [= <-]. by eexists.
  - intros (Hd & Heq & Hisin).
    destruct (dict_get "eq" d) as [e|] eqn:He; [|by eexists].
    specialize (Heq e eq_refl).
    rewrite dict_get_pop_ne by done.
    assert (∀ X, scalar_list X →
      is_dict (dict_set "isin" X (dict_pop "eq" d)) ∧
      ∀ c, dict_get "isin" (dict_set "isin" X (dict_pop "eq" d)) = Some c →
           scalar_list c) as Hset.
    { intros X HX. split; [by apply is_dict_set, is_dict_pop|].
      intros c. rewrite dict_get_set. simpl. by intros [= <-]. }
    assert (scalar_list (PList [e])) as H1.
    { eexists. split; [done|]. simpl. by rewrite Heq. }
    assert (scalar_list (PList [])) as H0 by by eexists.
    destruct (dict_get "isin" d) as [c|] eqn:Hc.
    + destruct (Hisin c eq_refl) as (l & -> & Hl). simpl.
      eexists. split; [done|]. destruct (py_in_list e l); by apply Hset.
    + eexists. split; [done|]. by apply Hset.
Qed.

(** The keys of a normalized value are keys of [operators] when the
    value uses the operators of [subfilter_operators] only. *)
Lemma to_dict_valid_keys v nd :
  uses_only subfilter_operators v → _to_dict v = Ok nd → valid_keys nd = true.
Proof.
  assert (∀ X d, is_dict d → (∀ op, op ∈ keys d → op ∈ subfilter_operators) →
            valid_keys (dict_set "isin" X (dict_pop "eq" d)) = true) as Hset.
  { intros X d Hd Hops. unfold valid_keys. apply forallb_forall.
    intros op Hop%list_elem_of_In. rewrite keys_dict_set in Hop.
    assert (op = "isin" ∨ op ∈ keys (dict_pop "eq" d)) as [->|Hin].
    { destruct (dict_has _ _); [by right|].
      apply elem_of_app in Hop as [?|Hop]; [by right|]. left. set_solver. }
    - done.
    - apply keys_dict_pop in Hin as [Hin Hne]; [|done].
      apply Hops in Hin. unfold subfilter_operators in Hin.
      repeat (apply elem_of_cons in Hin as [->|Hin]); try done.
      by apply elem_of_nil in Hin. }
  destruct v as [[z|s|l]|d]; simpl; try (intros _ [= <-]; done).
  intros [Hd Hops].
  destruct (dict_get "eq" d) as [e|] eqn:He.
  - destruct (dict_get "isin" (dict_pop "eq" d)) as [c|].
    + destruct (py_contains e c) as [b|]; simpl; [|done].
      intros [= <-]. by apply Hset.
    + intros [= <-]. by apply Hset.
  - intros [= <-]. unfold valid_keys. apply forallb_forall.
    intros op Hop%list_elem_of_In.
    assert (op ≠ "eq") as Hne.
    { intros ->. apply dict_get_None in He. done. }
    apply Hops in Hop. unfold subfilter_operators in Hop.
    repeat (apply elem_of_cons in Hop as [->|Hop]); try done.
    by apply elem_of_nil in Hop.
Qed.

(** A normalized value is a sub-dictionary of itself. *)
Lemma is_subdict_refl nd :
  valid_keys nd = true →
  (∀ c, dict_get "isin" nd = Some c → scalar_list c) →
  _is_subdict nd nd = Ok true.
Proof.
  intros Hv Hisin. unfold _is_subdict. rewrite Hv. cbn [negb].
  assert (∀ op f a b, (op, f) ∈ operators → dict_get op nd = Some a →
            dict_get op nd = Some b → f a b = Ok true) as Hrefl.
  { intros op f a b Hin Ha Hb. assert (a = b) as <- by congruence.
    unfold operators in Hin.
    repeat (apply elem_of_cons in Hin as [[= -> ->]|Hin]);
      [| | | | | |by apply elem_of_nil in Hin];
      auto using py_le_refl, py_ge_refl.
    - by rewrite py_eqb_refl.
    - destruct (Hisin a Ha) as (l & -> & Hl).
      rewrite py_issubset_lists by done. f_equal.
      by apply forallb_in_list_subseteq. }
  destruct (unmatched_loop_spec operators nd nd ∅) as (U & -> & HU).
  { intros op f a b Hin Ha Hb. exists true. eauto. }
  cbn [mbind result_bind]. f_equal.
  rewrite bool_decide_eq_true, size_empty_iff. unfold_leibniz. apply HU.
  split; [done|]. intros op f b Hin Hb. exists b. eauto.
Qed.

(** ** A filter against itself *)

Lemma subfilter_loop_self_nonstrict f suffix D :
  is_dict f → suffix ⊆ f →
  Forall (λ kv, well_typed_value kv.2) suffix →
  Forall (λ kv, uses_only subfilter_operators kv.2) suffix →
  subfilter_loop f suffix false D = Ok true.
Proof.
  intros Hf. induction suffix as [|[key v] suffix IH]; simpl; [done|].
  intros Hsub [Hty Htys]%Forall_cons [Hops Hopss]%Forall_cons. simpl in *.
  rewrite (dict_get_elem key v f Hf) by (apply (Hsub (key, v)), list_elem_of_here).
  destruct (to_dict_well_typed v Hty) as (nd & Hto & Hnd & Hisin).
  rewrite Hto. simpl.
  rewrite (is_subdict_refl nd); [|by eapply to_dict_valid_keys|done]. simpl.
  apply IH; [by intros x Hx; apply (Hsub x), list_elem_of_further|done..].
Qed.

Lemma subfilter_loop_self_strict f suffix :
  is_dict f → suffix ⊆ f → is_dict suffix →
  Forall (λ kv, well_typed_value kv.2) suffix →
  subfilter_loop f suffix true (list_to_set (keys suffix)) = Ok false.
Proof.
  intros Hf. induction suffix as [|[key v] suffix IH]; [done|].
  intros Hsub Hds [Hty Htys]%Forall_cons.
  assert ((key ∉ keys suffix) ∧ is_dict suffix) as [Hk Hnd]
    by by apply NoDup_cons in Hds.
  assert (list_to_set (C := gset string) (keys ((key, v) :: suffix))
          = {[key]} ∪ list_to_set (keys suffix)) as -> by done.
  cbn [subfilter_loop].
  rewrite (dict_get_elem key v f Hf) by (apply (Hsub (key, v)), list_elem_of_here).
  destruct (to_dict_well_typed v Hty) as (nd & Hto & Hdnd & Hisin).
  rewrite Hto. cbn [mbind result_bind].
  rewrite dict_eqb_refl by done. cbn [andb].
  rewrite bool_decide_eq_true_2 by set_solver.
  replace (({[key]} ∪ list_to_set (keys suffix)) ∖ {[key]})
    with (list_to_set (C := gset string) (keys suffix)).
  - apply IH; [by intros x Hx; apply (Hsub x), list_elem_of_further|done..].
  - apply set_eq. intros x.
    rewrite elem_of_difference, elem_of_union, elem_of_singleton,
      !elem_of_list_to_set.
    split; [|tauto]. intros Hx. split; [by right|]. intros ->. done.
Qed.

(** C5 (as amended). For a well-formed filter [f]: [is_subfilter f f]
    with [strict=True] returns [False], and with [strict=False] it
    returns [True] when the filter values use only the operators eq,
    ne, le, lt, ge, gt, isin. *)
Theorem is_subfilter_self (f : filter_dict) :
  well_formed f →
  (Forall (λ kv, uses_only subfilter_operators kv.2) f →
   is_subfilter f f false = Ok true) ∧
  is_subfilter f f true = Ok false.
Proof.
  intros [Hf Hty]. split.
  - intros Hops. by apply subfilter_loop_self_nonstrict.
  - by apply subfilter_loop_self_strict.
Qed.

(** ** The invalid-keys assertion *)

Lemma py_le_error a b e : py_le a b = Err e → e = TypeError.
Proof.
  revert b. induction a as [x|s|l IH] using pyval_ind; intros [y|t|k]; simpl;
    try congruence.
  revert k. induction IH as [|a l Ha _ IHl]; intros [|b k]; try done.
  destruct (py_eqb a b); [apply IHl|apply Ha].
Qed.

Lemma py_ge_error a b e : py_ge a b = Err e → e = TypeError.
Proof.
  revert b. induction a as [x|s|l IH] using pyval_ind; intros [y|t|k]; simpl;
    try congruence.
  revert k. induction IH as [|a l Ha _ IHl]; intros [|b k]; try done.
  destruct (py_eqb a b); [apply IHl|apply Ha].
Qed.

Lemma py_set_error a e : py_set a = Err e → e = TypeError.
Proof.
  destruct a as [x|s|l]; simpl; try congruence.
  destruct (forallb hashable l); congruence.
Qed.

Lemma py_issubset_error a b e : py_issubset a b = Err e → e = TypeError.
Proof.
  unfold py_issubset.
  destruct (py_set a) eqn:Ha; simpl; [|intros [= <-]; by eapply py_set_error].
  destruct (py_set b) eqn:Hb; simpl; [done|intros [= <-]; by eapply py_set_error].
Qed.

Lemma to_dict_error v e : _to_dict v = Err e → e = TypeError.
Proof.
  destruct v as [[z|s|l]|d]; simpl; try done.
  destruct (dict_get "eq" d) as [x|]; [|done].
  destruct (dict_get "isin" _) as [c|]; [|done].
  destruct c as [?|s|l]; simpl; try congruence.
  destruct x; simpl; congruence.
Qed.

Lemma unmatched_loop_error d1 d2 U e :
  unmatched_loop operators d1 d2 U = Err e → e = TypeError.
Proof.
  assert (∀ op f a b, (op, f) ∈ operators → f a b = Err e → e = TypeError)
    as Hop.
  { intros op f a b Hin. unfold operators in Hin.
    repeat (apply elem_of_cons in Hin as [[= -> ->]|Hin]);
      [| | | | | |by apply elem_of_nil in Hin];
      eauto using py_le_error, py_ge_error, py_issubset_error. done. }
  revert U Hop. generalize operators as ops.
  induction ops as [|[op f] ops IH]; intros U Hop; simpl; [done|].
  assert (∀ op f a b, (op, f) ∈ ops → f a b = Err e → e = TypeError) as Hop'.
  { intros ???? Hin. eapply Hop. by right. }
  destruct (dict_get op d2) as [b|]; [|by apply IH].
  destruct (dict_get op d1) as [a|]; [|by apply IH].
  destruct (f a b) as [r|e'] eqn:Hf; simpl; [by apply IH|].
  intros [= ->]. eapply Hop; [left|done].
Qed.

Lemma subfilter_loop_no_invalid_keys left right strict D which :
  Forall (λ kv, uses_only subfilter_operators kv.2) left →
  Forall (λ kv, uses_only subfilter_operators kv.2) right →
  subfilter_loop left right strict D ≠ Err (InvalidKeys which).
Proof.
  intros Hl. revert D.
  induction right as [|[key rv] right IH]; intros D Hr; simpl; [done|].
  apply Forall_cons in Hr as [Hrv Hr]. simpl in Hrv.
  destruct (dict_get key left) as [lv|] eqn:Hg; [|done].
  assert (uses_only subfilter_operators lv) as Hlv.
  { apply dict_get_Some_elem in Hg. rewrite Forall_forall in Hl.
    by apply (Hl (key, lv)). }
  destruct (_to_dict lv) as [d1|e] eqn:H1; simpl;
    [|apply to_dict_error in H1 as ->; done].
  destruct (_to_dict rv) as [d2|e] eqn:H2; simpl;
    [|apply to_dict_error in H2 as ->; done].
  destruct (strict && dict_eqb d1 d2).
  - case_bool_decide; [by apply IH|done].
  - unfold _is_subdict.
    rewrite (to_dict_valid_keys lv d1), (to_dict_valid_keys rv d2) by done.
    cbn [negb].
    destruct (unmatched_loop operators d1 d2 ∅) as [U|e] eqn:HU; simpl.
    + destruct (bool_decide _); simpl; [by apply IH|done].
    + apply unmatched_loop_error in HU as ->. done.
Qed.

Lemma is_subdict_invalid_keys d1 d2 :
  (∃ which, _is_subdict d1 d2 = Err (InvalidKeys which)) ↔
  valid_keys d1 && valid_keys d2 = false.
Proof.
  unfold _is_subdict.
  destruct (valid_keys d1); cbn [negb andb]; [|by split; [|eexists]].
  destruct (valid_keys d2); cbn [negb]; [|by split; [|eexists]].
  split; [|done]. intros [which Hw].
  destruct (unmatched_loop operators d1 d2 ∅) as [U|e] eqn:HU; [done|].
  apply unmatched_loop_error in HU as ->. done.
Qed.

Lemma field_reached left strict key rv lv d1 d2 :
  dict_get key left = Some lv → _to_dict lv = Ok d1 → _to_dict rv = Ok d2 →
  (field_passes left strict (key, rv) ↔
   if strict && dict_eqb d1 d2 then True else _is_subdict d1 d2 = Ok true) ∧
  (field_has_invalid_keys left strict (key, rv) ↔
   strict && dict_eqb d1 d2 = false ∧ valid_keys d1 && valid_keys d2 = false).
Proof.
  intros Hg H1 H2. unfold field_passes, field_has_invalid_keys. cbn [fst snd].
  split; (split; [|intros ?; by exists lv, d1, d2]);
    intros (lv' & d1' & d2' & Hg' & H1' & H2' & Hrest);
    rewrite Hg in Hg'; injection Hg' as <-;
    rewrite H1 in H1'; injection H1' as <-;
    rewrite H2 in H2'; by injection H2' as <-.
Qed.

Lemma field_not_reached left strict key rv :
  (∀ lv d1 d2, dict_get key left = Some lv → _to_dict lv = Ok d1 →
               _to_dict rv = Ok d2 → False) →
  ¬ field_passes left strict (key, rv) ∧
  ¬ field_has_invalid_keys left strict (key, rv).
Proof.
  intros Hno. split; intros (lv & d1 & d2 & Hg & H1 & H2 & _); eauto.
Qed.

Lemma reaches_invalid_keys_cons left strict kv (right : filter_dict) :
  (∃ pre kv' post, kv :: right = pre ++ kv' :: post ∧
     Forall (field_passes left strict) pre ∧
     field_has_invalid_keys left strict kv') ↔
  field_has_invalid_keys left strict kv ∨
  (field_passes left strict kv ∧
   ∃ pre kv' post, right = pre ++ kv' :: post ∧
     Forall (field_passes left strict) pre ∧
     field_has_invalid_keys left strict kv').
Proof.
  split.
  - intros ([|p pre] & kv' & post & Heq & Hpre & Hinv); injection Heq as <- ->.
    + by left.
    + apply Forall_cons in Hpre as [Hp Hpre]. right. split; [done|].
      by exists pre, kv', post.
  - intros [Hinv|[Hp (pre & kv' & post & -> & Hpre & Hinv)]].
    + by exists [], kv, right.
    + exists (kv :: pre), kv', post. split_and!; [done| |done]. by constructor.
Qed.

(** The invalid-keys assertion fails exactly when the loop reaches a
    field, past the fields before it, whose compared values have a key
    outside [operators]. *)
Lemma subfilter_loop_invalid_keys left right strict D :
  is_dict right →
  (∀ k, k ∈ keys right → k ∈ keys left → k ∈ D) →
  (∃ which, subfilter_loop left right strict D = Err (InvalidKeys which)) ↔
  ∃ pre kv post, right = pre ++ kv :: post ∧
    Forall (field_passes left strict) pre ∧
    field_has_invalid_keys left strict kv.
Proof.
  revert D. induction right as [|[key rv] right IH]; intros D Hd HD.
  - split; [by intros [? ?]|]. intros (pre & kv & post & Heq & _).
    by destruct pre.
  - rewrite reaches_invalid_keys_cons.
    assert ((key ∉ keys right) ∧ is_dict right) as [Hkey Hd']
      by by apply NoDup_cons in Hd.
    cbn [subfilter_loop].
    destruct (dict_get key left) as [lv|] eqn:Hg; cycle 1.
    { destruct (field_not_reached left strict key rv) as [Hp Hi];
        [intros ??? Hg'; by rewrite Hg in Hg'|].
      split; [by intros [? ?]|tauto]. }
    destruct (_to_dict lv) as [d1|e1] eqn:H1; cbn [mbind result_bind]; cycle 1.
    { destruct (field_not_reached left strict key rv) as [Hp Hi];
        [intros ??? Hg' H1'; rewrite Hg in Hg'; injection Hg' as <-;
         by rewrite H1 in H1'|].
      apply to_dict_error in H1 as ->. split; [by intros [? ?]|tauto]. }
    destruct (_to_dict rv) as [d2|e2] eqn:H2; cbn [mbind result_bind]; cycle 1.
    { destruct (field_not_reached left strict key rv) as [Hp Hi];
        [intros ??? _ _ H2'; by rewrite H2 in H2'|].
      apply to_dict_error in H2 as ->. split; [by intros [? ?]|tauto]. }
    destruct (field_reached left strict key rv lv d1 d2 Hg H1 H2) as [Hp Hi].
    rewrite Hp, Hi.
    destruct (strict && dict_eqb d1 d2) eqn:Hcmp.
    + rewrite bool_decide_eq_true_2; cycle 1.
      { apply HD; [left|]. apply dict_get_is_Some. by rewrite Hg. }
      rewrite IH; [|done|].
      * split; [intros ?; by right|]. by intros [[? _]|[_ ?]].
      * intros k Hk Hkl. apply elem_of_difference. split.
        -- apply HD; [by right|done].
        -- intros ->%elem_of_singleton. done.
    + pose proof (is_subdict_invalid_keys d1 d2) as Hinv.
      destruct (_is_subdict d1 d2) as [[|]|e] eqn:Hsub; cbn [mbind result_bind negb].
      * rewrite IH; [|done|intros k Hk Hkl; apply HD; [by right|done]].
        split; [intros ?; by right|].
        intros [[_ Hv]|[_ ?]]; [|done]. apply Hinv in Hv as [? ?]. done.
      * split; [by intros [? ?]|].
        intros [[_ Hv]|[? _]]; [|done]. apply Hinv in Hv as [? ?]. done.
      * rewrite Hinv. split; [intros ?; by left|].
        by intros [[_ ?]|[? _]].
Qed.

(** C6 (as amended). [is_subfilter] never fails with the invalid-keys
    assertion when the filter values of both arguments use only eq, ne,
    le, lt, ge, gt, isin; and it fails with it exactly when the loop
    over the fields of [right] reaches a field, every field before it
    being a key of [left] that passes its check, that is a key of
    [left], whose two normalized values are compared (the call is not
    strict, or they differ), and one of them has a key that [operators]
    does not have. *)
Theorem is_subfilter_invalid_keys :
  (∀ left right strict which,
     Forall (λ kv, uses_only subfilter_operators kv.2) left →
     Forall (λ kv, uses_only subfilter_operators kv.2) right →
     is_subfilter left right strict ≠ Err (InvalidKeys which)) ∧
  (∀ left right strict,
     is_dict right →
     (∃ which, is_subfilter left right strict = Err (InvalidKeys which)) ↔
     ∃ pre kv post, right = pre ++ kv :: post ∧
       Forall (field_passes left strict) pre ∧
       field_has_invalid_keys left strict kv).
Proof.
  split.
  - intros. by apply subfilter_loop_no_invalid_keys.
  - intros left right strict Hd. unfold is_subfilter.
    apply subfilter_loop_invalid_keys; [done|].
    intros k _ Hk. by apply elem_of_list_to_set.
Qed.

(** ** Masks *)

Lemma mapM_result_cons {A B} (f : A → result B) x l :
  mapM f (x :: l) = y ← f x; k ← mapM f l; Ok (y :: k).
Proof. done. Qed.

Lemma mapM_result_length {A B} (f : A → result B) l k :
  mapM f l = Ok k → length k = length l.
Proof.
  revert k. induction l as [|x l IH]; intros k.
  - by intros [= <-].
  - rewrite mapM_result_cons. destruct (f x) as [y|]; [|done].
    cbn [mbind result_bind]. destruct (mapM f l) as [k'|]; [|done].
    intros [= <-]. simpl. f_equal. by apply IH.
Qed.

Lemma mapM_result_Forall2 {A B} (f : A → result B) l k :
  mapM f l = Ok k ↔ Forall2 (λ x y, f x = Ok y) l k.
Proof.
  revert k. induction l as [|x l IH]; intros k.
  - split; [intros [= <-]; constructor|by intros ->%Forall2_nil_inv_l].
  - rewrite mapM_result_cons. split.
    + destruct (f x) as [y|] eqn:Hy; [|done].
      cbn [mbind result_bind]. destruct (mapM f l) as [k'|]; [|done].
      intros [= <-]. constructor; [done|]. by apply IH.
    + intros (y & k' & Hy & Hk & ->)%Forall2_cons_inv_l.
      rewrite Hy. cbn [mbind result_bind].
      apply IH in Hk. by rewrite Hk.
Qed.

Lemma np_all_elementwise masks n :
  masks ≠ [] → Forall (λ m, length m = n) masks →
  length (np_all masks) = n ∧
  ∀ i b, np_all masks !! i = Some b →
         (b = true ↔ ∀ m, m ∈ masks → m !! i = Some true).
Proof.
  destruct masks as [|m ms]; [done|]. intros _. simpl.
  revert m. induction ms as [|m' ms IH]; intros m Hlen; simpl.
  - apply Forall_cons in Hlen as [Hm _]. split; [done|].
    intros i b Hb. split.
    + intros -> m' ->%list_elem_of_singleton. done.
    + intros Hall. specialize (Hall m (list_elem_of_here _ _)). congruence.
  - apply Forall_cons in Hlen as [Hm [Hm' Hms]%Forall_cons].
    destruct (IH (zip_with andb m m')) as [IHlen IHall].
    { constructor; [|done]. rewrite length_zip_with. lia. }
    split; [done|]. intros i b Hb. rewrite (IHall i b Hb). clear IHall IH.
    split.
    + intros Hall x Hx.
      assert (zip_with andb m m' !! i = Some true) as Hz
        by apply Hall, list_elem_of_here.
      rewrite lookup_zip_with in Hz.
      destruct (m !! i) as [[]|] eqn:Hmi; simpl in Hz; try done;
        destruct (m' !! i) as [[]|] eqn:Hmi'; simpl in Hz; try done.
      apply elem_of_cons in Hx as [->|Hx]; [done|].
      apply elem_of_cons in Hx as [->|Hx]; [done|].
      by apply Hall, list_elem_of_further.
    + intros Hall x Hx. apply elem_of_cons in Hx as [->|Hx].
      * rewrite lookup_zip_with.
        rewrite (Hall m) by apply list_elem_of_here.
        rewrite (Hall m') by apply list_elem_of_further, list_elem_of_here.
        done.
      * by apply Hall, list_elem_of_further, list_elem_of_further.
Qed.

Lemma np_all_singleton m : np_all [m] = m.
Proof. done. Qed.

(** ** [compare] on an operator mapping *)

Section compare_facts.
Context `{Engine}.

Lemma operator_mask_length obj item mask :
  operator_mask obj item = Ok mask → length mask = length obj.
Proof.
  unfold operator_mask. destruct (dict_get _ _); [|done].
  apply series_op_length.
Qed.

Lemma compare_supported obj d :
  d ≠ [] → (∀ op, op ∈ keys d → op ∈ keys COMPARISON_OPERATORS) →
  compare obj (FDict d) = masks ← mapM (operator_mask obj) d; Ok (np_all masks).
Proof.
  intros Hne Hops. unfold compare. destruct d as [|kv d]; [done|].
  assert (filter (λ op, dict_has op COMPARISON_OPERATORS = false)
            (keys (kv :: d)) = []) as ->.
  { destruct (filter _ _) as [|op ops] eqn:Hf; [done|].
    assert (op ∈ op :: ops) as Hop by left. rewrite <-Hf in Hop.
    apply list_elem_of_filter in Hop as [Hbad Hop].
    apply Hops in Hop. apply dict_has_false in Hbad. done. }
  destruct (mapM (operator_mask obj) (kv :: d)) as [masks|]; [|done].
  cbn [mbind result_bind]. by destruct masks as [|m [|m' masks]].
Qed.


End compare_facts.

(** ** The reference engine is an engine *)

Definition cellwise_engine : Engine :=
  {| series_op := cellwise_op;
     pd_reorder_levels := reorder_by_name;
     pd_concat := concat_rows;
     series_op_length op obj v mask :=
       mapM_result_length (λ cell, cell_op op cell v) obj mask |}.

(** The cases of [test_compare_int]. *)
Example compare_int_cases :
  let obj := PInt <$> [0; 10; 11; 12; 20; 21; 10; 2]%Z in
  let T := true in let F := false in
  @compare cellwise_engine obj (FVal (PInt 10))
    = Ok [F; T; F; F; F; F; T; F] ∧
  @compare cellwise_engine obj (FVal (PList [PInt 11; PInt 20]))
    = Ok [F; F; T; F; T; F; F; F] ∧
  @compare cellwise_engine obj (FDict [("lt", PInt 10)])
    = Ok [T; F; F; F; F; F; F; T] ∧
  @compare cellwise_engine obj (FDict [("ge", PInt 10); ("lt", PInt 12)])
    = Ok [F; T; T; F; F; F; T; F] ∧
  @compare cellwise_engine obj (FDict [("unknown", PInt 10)])
    = Err (UnsupportedOperators ["unknown"]) ∧
  @compare cellwise_engine obj (FDict []) = Err EmptyFilter.
Proof. vm_compute. done. Qed.

#[global] Instance fvalue_eq_dec : EqDecision fvalue.
Proof. solve_decision. Defined.

(** ** Empty dictionaries in a query list *)

Section empty_dicts.
Context `{Engine}.

Lemma or_masks_loop_skip filter_func query_list or_masks :
  or_masks_loop filter_func query_list or_masks =
  or_masks_loop filter_func (filter (λ q, q ≠ []) query_list) or_masks.
Proof.
  revert or_masks. induction query_list as [|q ql IH]; intros acc; [done|].
  destruct q as [|kv q].
  - rewrite filter_cons_False by (by intros ?). apply IH.
  - rewrite filter_cons_True by done. cbn [or_masks_loop].
    destruct (filter_func (kv :: q)); [|done]. cbn [mbind result_bind].
    apply IH.
Qed.

Lemma and_or_mask_skip filter_func query_list :
  _and_or_mask query_list filter_func =
  _and_or_mask (filter (λ q, q ≠ []) query_list) filter_func.
Proof. unfold _and_or_mask. by rewrite or_masks_loop_skip. Qed.

(** C3 (as amended). The empty dictionaries of a query list are
    skipped: [query_frame] and [query_series] return what they return
    on the list without them, and they return their input unchanged
    when the list holds no other dictionary. *)
Theorem empty_filter_dicts_are_skipped (df : DataFrame) (series : Series)
    (query_list : list filter_dict) :
  let non_empty := filter (λ q, q ≠ []) query_list in
  query_frame df query_list = query_frame df non_empty ∧
  query_series series query_list = query_series series non_empty ∧
  (non_empty = [] →
   query_frame df query_list = Ok df ∧
   query_series series query_list = Ok series).
Proof.
  intros non_empty. unfold query_frame, query_series.
  rewrite (and_or_mask_skip (frame_filter_func df)).
  rewrite (and_or_mask_skip (series_filter_func series)).
  fold non_empty. split_and!; [done|done|]. by intros ->.
Qed.

End empty_dicts.

(** The case of [test_andor_mask], through [query_frame]. *)
Example andor_mask_case :
  @query_frame cellwise_engine andor_table
    [ [("col1", FVal (PInt 10))];
      [("col1", FVal (PInt 11)); ("col2", FVal (PInt 111))];
      [("col1", FVal (PInt 99)); ("col2", FVal (PInt 100))] ]
  = Ok (loc andor_table [false; true; true; false; false]).
Proof. vm_compute. done. Qed.

(** An empty dictionary next to a non-empty one does not make the
    result the whole table: only the rows the non-empty dictionary
    selects are returned. *)
Lemma empty_dict_in_list_still_filters :
  [] ∈ [ []; [("col1", FVal (PInt 10))] ] ∧
  @query_frame cellwise_engine andor_table [ []; [("col1", FVal (PInt 10))] ]
    = Ok (mkDataFrame [None] ["col1"; "col2"]
            [mkRow [PInt 1] [PInt 10; PInt 110]]) ∧
  length (rows andor_table) = 5 ∧
  @query_series cellwise_engine andor_series [ []; [("col1", FVal (PInt 10))] ]
    = Ok (mkSeries [Some "col1"] [([PInt 10], PInt 110)]) ∧
  length (s_rows andor_series) = 3.
Proof. split; [left|]. vm_compute. done. Qed.

(** ** The level checks of [smart_concat] *)

Section concat_facts.
Context `{Engine}.

Lemma ordered_all_first first iterable :
  ordered_all None (first :: iterable) =
    objects ← ordered_all (Some (index_names first)) iterable;
    Ok (first :: objects).
Proof.
  cbn [ordered_all]. unfold _ordered.
  rewrite bool_decide_eq_true_2 by done. done.
Qed.

Lemma ordered_all_stops order pre pre' obj post e :
  ordered_all (Some order) pre = Ok pre' →
  (_ordered (Some order) obj).1 = Err e →
  ordered_all (Some order) (pre ++ obj :: post) = Err e.
Proof.
  revert pre'. induction pre as [|o pre IH]; intros pre' Hpre Hobj.
  - cbn [app ordered_all]. destruct (_ordered (Some order) obj) as [r o'].
    simpl in Hobj. by rewrite Hobj.
  - cbn [app ordered_all] in *.
    destruct (_ordered (Some order) o) as [r o'] eqn:Ho.
    assert (o' = Some order) as -> by (unfold _ordered in Ho; congruence).
    destruct r as [o2|]; [|done]. cbn [mbind result_bind] in *.
    destruct (ordered_all (Some order) pre) as [pre2|]; [|done].
    by rewrite (IH pre2).
Qed.

(** An operand with another number of index levels than the first one:
    [RuntimeError] with the two counts. *)
Lemma smart_concat_level_count first pre pre' obj post keys skip_empty :
  ordered_all (Some (index_names first)) pre = Ok pre' →
  length (index_names obj) ≠ length (index_names first) →
  smart_concat (first :: pre ++ obj :: post) keys skip_empty =
    Err (LevelsLengthMismatch (length (index_names obj))
                              (length (index_names first))).
Proof.
  intros Hpre Hlen. unfold smart_concat. rewrite ordered_all_first.
  rewrite (ordered_all_stops _ pre pre' obj post
             (LevelsLengthMismatch (length (index_names obj))
                                   (length (index_names first)))); [done..|].
  unfold _ordered. cbn [fst].
  rewrite bool_decide_eq_false_2 by congruence.
  unfold _reorder_levels.
  destruct (Nat.eqb_spec (length (index_names first)) (length (index_names obj)));
    [congruence|done].
Qed.


End concat_facts.

(** C8 (the case the code misses). The second operand lacks the level
    ["x"] of the first one, whose other level is unnamed: [''.join]
    meets [None] and the call ends in a [TypeError] instead of the
    [RuntimeError] that names the missing levels. *)
Theorem smart_concat_unnamed_level :
  Some "x" ∈ index_names unnamed_level_table ∧
  (Some "x" ∉ index_names named_levels_table) ∧
  @smart_concat cellwise_engine [unnamed_level_table; named_levels_table]
     None true = Err TypeError ∧
  exn_class TypeError ≠ RuntimeError.
Proof.
  split_and!; [set_solver|set_solver| |done].
  vm_compute. done.
Qed.

(** ** Boolean indexing and conjunction of masks *)

Lemma filter_mask_nil_r {A} (xs : list A) : filter_mask xs [] = [].
Proof. by destruct xs. Qed.

Lemma zip_and_assoc (a b c : list bool) :
  zip_with andb a (zip_with andb b c) = zip_with andb (zip_with andb a b) c.
Proof.
  revert b c. induction a as [|x a IH]; intros [|y b] [|z c]; simpl; try done.
  by rewrite IH, andb_assoc.
Qed.

Lemma foldl_zip_and_assoc a b ms :
  zip_with andb a (foldl (zip_with andb) b ms) =
  foldl (zip_with andb) (zip_with andb a b) ms.
Proof.
  revert b. induction ms as [|m ms IH]; intros b; simpl; [done|].
  by rewrite IH, zip_and_assoc.
Qed.

(** The conjunction of masks of one length depends on the set of masks
    only. *)
Lemma np_all_same_elements ms1 ms2 n :
  ms1 ≠ [] → ms2 ≠ [] → Forall (λ m, length m = n) ms1 →
  (∀ m, m ∈ ms1 ↔ m ∈ ms2) →
  np_all ms1 = np_all ms2.
Proof.
  intros Hne1 Hne2 Hlen1 Helem.
  assert (Forall (λ m, length m = n) ms2) as Hlen2.
  { rewrite Forall_forall in *. intros m Hm. by apply Hlen1, Helem. }
  destruct (np_all_elementwise ms1 n Hne1 Hlen1) as [L1 E1].
  destruct (np_all_elementwise ms2 n Hne2 Hlen2) as [L2 E2].
  apply list_eq. intros i.
  destruct (np_all ms1 !! i) as [b1|] eqn:H1.
  - destruct (np_all ms2 !! i) as [b2|] eqn:H2.
    + f_equal. specialize (E1 i b1 H1). specialize (E2 i b2 H2).
      destruct b1, b2; try done.
      * symmetry. apply E2. intros m Hm. apply E1; [done|]. by apply Helem.
      * apply E1. intros m Hm. apply E2; [done|]. by apply Helem.
    + apply lookup_lt_Some in H1. apply lookup_ge_None in H2. lia.
  - destruct (np_all ms2 !! i) as [b2|] eqn:H2; [|done].
    apply lookup_lt_Some in H2. apply lookup_ge_None in H1. lia.
Qed.

Lemma mapM_result_elements {A B} (f : A → result B) l k :
  mapM f l = Ok k → ∀ y, y ∈ k ↔ ∃ x, x ∈ l ∧ f x = Ok y.
Proof.
  intros Hm%mapM_result_Forall2 y.
  induction Hm as [|x y' l k Hxy _ IH].
  - split; [by intros ?%elem_of_nil|]. intros (x & ?%elem_of_nil & _). done.
  - rewrite elem_of_cons, IH. split.
    + intros [->|(x' & Hx' & Hf)].
      * exists x. split; [left|done].
      * exists x'. split; [by right|done].
    + intros (x' & [->|Hx']%elem_of_cons & Hf).
      * left. congruence.
      * right. eauto.
Qed.

Lemma mapM_result_total {A B} (f : A → result B) l :
  (∀ x, x ∈ l → ∃ y, f x = Ok y) → ∃ k, mapM f l = Ok k.
Proof.
  induction l as [|x l IH]; intros Hall.
  - by eexists.
  - destruct (Hall x) as [y Hy]; [left|].
    destruct IH as [k Hk]; [intros x' Hx'; apply Hall; by right|].
    exists (y :: k). rewrite mapM_result_cons, Hy. cbn [mbind result_bind].
    by rewrite Hk.
Qed.

Lemma mapM_result_app {A B} (f : A → result B) l1 l2 :
  mapM f (l1 ++ l2) = k1 ← mapM f l1; k2 ← mapM f l2; Ok (k1 ++ k2).
Proof.
  induction l1 as [|x l1 IH].
  - cbn [app]. change (mapM f []) with (Ok (@nil B)). cbn [mbind result_bind].
    by destruct (mapM f l2).
  - cbn [app]. rewrite !mapM_result_cons. destruct (f x); [|done].
    cbn [mbind result_bind]. rewrite IH.
    destruct (mapM f l1); [|done]. cbn [mbind result_bind].
    by destruct (mapM f l2).
Qed.

(** ** Filtering by one field *)

Section field_facts.
Context `{Engine}.

Lemma compare_dict_Ok obj d mask :
  compare obj (FDict d) = Ok mask →
  d ≠ [] ∧ (∀ op, op ∈ keys d → op ∈ keys COMPARISON_OPERATORS) ∧
  ∃ masks, mapM (operator_mask obj) d = Ok masks ∧ mask = np_all masks.
Proof.
  intros Hc.
  assert (d ≠ []) as Hne by (by intros ->).
  assert (∀ op, op ∈ keys d → op ∈ keys COMPARISON_OPERATORS) as Hops.
  { intros op Hop. destruct (decide (op ∈ keys COMPARISON_OPERATORS)) as [|Hn];
      [done|]. exfalso.
    unfold compare in Hc. destruct d as [|kv d]; [done|].
    set (u := filter _ _) in Hc.
    assert (op ∈ u) as Hu.
    { apply list_elem_of_filter. split; [by apply dict_has_false|done]. }
    destruct u; [by apply elem_of_nil in Hu|done]. }
  split_and!; [done..|].
  rewrite compare_supported in Hc by done.
  destruct (mapM _ d) as [masks|]; [|done]. exists masks.
  split; [done|]. by injection Hc.
Qed.

Lemma operator_masks_length obj d masks :
  mapM (operator_mask obj) d = Ok masks →
  Forall (λ m, length m = length obj) masks.
Proof.
  intros Hm. apply Forall_forall. intros m Hm'.
  apply (mapM_result_elements _ _ _ Hm) in Hm' as (item & _ & Hitem).
  by eapply operator_mask_length.
Qed.

Lemma compare_length obj v mask :
  compare obj v = Ok mask → length mask = length obj.
Proof.
  destruct v as [[z|s|l]|d]; try apply series_op_length.
  intros (Hne & _ & masks & Hm & ->)%compare_dict_Ok.
  apply np_all_elementwise; [|by eapply operator_masks_length].
  apply mapM_result_length in Hm. destruct d, masks; done.
Qed.

Lemma field_mask_length df kv mask :
  field_mask df kv = Ok mask → length mask = length (rows df).
Proof.
  unfold field_mask, getitem, get_level_values.
  destruct (mapping df kv.1) as [[]|]; [| |done].
  - destruct (position _ _); [|done]. cbn [mbind result_bind].
    intros ->%compare_length. by rewrite length_fmap.
  - destruct (position _ _); [|done]. cbn [mbind result_bind].
    intros ->%compare_length. by rewrite !length_fmap.
Qed.

Lemma etl_q_single df kv :
  etl_q df [kv] = mask ← field_mask df kv; Ok (loc df mask).
Proof.
  destruct kv as [k v].
  unfold etl_q, query_frame, _and_or_mask, field_mask.
  cbn [or_masks_loop frame_filter_func split_loop fst snd].
  unfold frame_filter_func. cbn [split_loop].
  destruct (mapping df k) as [[]|]; [| |done]; cbn [mbind result_bind fst snd dict_set].
  - rewrite mapM_result_cons. cbn [fst snd].
    destruct (getitem df k) as [obj|]; [|done]. cbn [mbind result_bind].
    destruct (compare obj v) as [m|]; [|done]. done.
  - change (mapM _ []) with (Ok (@nil (list bool))). cbn [mbind result_bind].
    rewrite mapM_result_cons. cbn [fst snd].
    destruct (get_level_values _ _ k) as [obj|]; [|done].
    cbn [mbind result_bind].
    destruct (compare obj v) as [m|]; [|done]. done.
Qed.

End field_facts.

#[global] Instance axis_eq_dec : EqDecision axis.
Proof. solve_decision. Defined.

Lemma dict_set_fresh {V} key (v : V) d :
  key ∉ keys d → dict_set key v d = d ++ [(key, v)].
Proof.
  unfold keys. induction d as [|[k w] d IH]; csimpl; [done|].
  intros [Hne Hd]%not_elem_of_cons.
  destruct (String.eqb_spec key k); [done|]. by rewrite IH.
Qed.

Lemma mapM_result_each {A B} (f : A → result B) l k x :
  mapM f l = Ok k → x ∈ l → ∃ y, f x = Ok y ∧ y ∈ k.
Proof.
  intros Hm%mapM_result_Forall2 Hx.
  induction Hm as [|x' y l k Hxy _ IH]; [by apply elem_of_nil in Hx|].
  apply elem_of_cons in Hx as [->|Hx].
  - exists y. split; [done|left].
  - destruct (IH Hx) as (y' & ? & ?). exists y'. split; [done|by right].
Qed.

(** ** Equal filter values select the same rows *)

Lemma dict_eqb_elements d1 d2 :
  is_dict d1 → dict_eqb d1 d2 = true →
  length d1 = length d2 ∧ ∀ x, x ∈ d1 ↔ x ∈ d2.
Proof.
  intros Hd [Hlen Hall]%andb_true_iff. apply Nat.eqb_eq in Hlen.
  split; [done|].
  assert (d1 ≡ₚ d2) as Hperm; [|intros x; by rewrite Hperm].
  apply submseteq_length_Permutation; [|lia].
  apply NoDup_submseteq.
  - by apply (NoDup_fmap_1 fst).
  - intros [k v] Hin. rewrite forallb_forall in Hall.
    specialize (Hall (k, v)). simpl in Hall.
    destruct (dict_get k d2) as [w|] eqn:Hg.
    + rewrite (proj1 (py_eqb_eq v w)); [by apply dict_get_Some_elem|].
      apply Hall. by apply list_elem_of_In.
    + discriminate Hall. by apply list_elem_of_In.
Qed.

Section equal_values.
Context `{Engine}.

Lemma compare_equal_values obj v1 v2 mask :
  dict_value v1 → fvalue_eqb v1 v2 = true →
  compare obj v1 = Ok mask → compare obj v2 = Ok mask.
Proof.
  destruct v1 as [a|d1], v2 as [b|d2]; try done.
  - intros _ ->%py_eqb_eq. done.
  - intros Hd Heq. change (dict_eqb d1 d2 = true) in Heq.
    apply dict_eqb_elements in Heq as [Hlen Helem]; [|done].
    intros (Hne & Hops & masks & Hm & ->)%compare_dict_Ok.
    assert (d2 ≠ []) as Hne2 by (destruct d1, d2; done).
    assert (∀ op, op ∈ keys d2 → op ∈ keys COMPARISON_OPERATORS) as Hops2.
    { intros op ([k v] & -> & Hin)%list_elem_of_fmap. apply Hops.
      apply list_elem_of_fmap. exists (k, v). split; [done|]. by apply Helem. }
    rewrite compare_supported by done.
    destruct (mapM_result_total (operator_mask obj) d2) as [masks2 Hm2].
    { intros x Hx%Helem.
      destruct (mapM_result_each _ _ _ x Hm Hx) as (m & ? & _). eauto. }
    rewrite Hm2. cbn [mbind result_bind]. f_equal.
    apply (np_all_same_elements _ _ (length obj)).
    + apply mapM_result_length in Hm2. destruct d2, masks2; done.
    + apply mapM_result_length in Hm. destruct d1, masks; done.
    + by eapply operator_masks_length.
    + intros m. rewrite (mapM_result_elements _ _ _ Hm),
        (mapM_result_elements _ _ _ Hm2).
      split; intros (x & Hx & Hxm); exists x; (split; [by apply Helem|done]).
Qed.

Lemma etl_q_equal_values df key v1 v2 T :
  dict_value v1 → fvalue_eqb v1 v2 = true →
  etl_q df [(key, v1)] = Ok T → etl_q df [(key, v2)] = Ok T.
Proof.
  intros Hd Heq. rewrite !etl_q_single.
  assert (∀ m, field_mask df (key, v1) = Ok m → field_mask df (key, v2) = Ok m)
    as Hmask.
  { intros m. unfold field_mask. cbn [fst snd].
    destruct (mapping df key) as [[]|]; [| |done].
    - destruct (getitem df key); [|done]. cbn [mbind result_bind].
      by apply compare_equal_values.
    - destruct (get_level_values _ _ key); [|done]. cbn [mbind result_bind].
      by apply compare_equal_values. }
  destruct (field_mask df (key, v1)) as [m|]; [|done].
  rewrite (Hmask m eq_refl). done.
Qed.

End equal_values.

(** ** The cache *)

Lemma min_longest_match_count (stack : list CachedItem) (q : filter_dict) :
  min (longest_match_count String.eqb (ci_key <$> stack) (keys q))
      (longest_match_count fvalue_eqb (ci_value <$> stack) (values q))
  = matching_prefix_length stack q.
Proof.
  unfold keys, values. revert q.
  induction stack as [|item stack IH]; intros [|[k v] q]; csimpl; try done.
  rewrite <-IH.
  destruct (String.eqb (ci_key item) k), (fvalue_eqb (ci_value item) v);
    csimpl; lia.
Qed.

Lemma top_cons df item stack : top df (item :: stack) = top (ci_df item) stack.
Proof.
  unfold top. destruct stack as [|it stack]; [done|].
  change (last (item :: it :: stack)) with (last (it :: stack)).
  destruct (last (it :: stack)) eqn:E; [done|]. by apply last_None in E.
Qed.

Lemma top_snoc df stack item : top df (stack ++ [item]) = ci_df item.
Proof. unfold top. by rewrite last_snoc. Qed.

(** The valid keys that [__init__] computes are the known keys of the
    table. *)
Lemma init_valid_keys base key :
  key ∈ _valid_keys (init base) ↔ known_key base key = true.
Proof.
  unfold init, known_key, truthy_names. cbn [_valid_keys].
  rewrite elem_of_union, !elem_of_list_to_set, list_elem_of_omap.
  rewrite orb_true_iff, andb_true_iff, negb_true_iff, !bool_decide_eq_true.
  split.
  - intros [?|([n|] & Hn & Hs)]; [by left| |done]. right.
    case_bool_decide as Hempty; [done|]. injection Hs as ->.
    split; [|done]. by apply String.eqb_neq.
  - intros [?|[Hne Hin]]; [by left|]. right. exists (Some key).
    split; [done|]. apply String.eqb_neq in Hne.
    by rewrite bool_decide_eq_false_2.
Qed.

Lemma asked_query_valid base (q : filter_dict) (ignore_unknown_keys : bool) :
  (if ignore_unknown_keys
   then filter (λ kv, kv.1 ∈ _valid_keys (init base)) q else q)
  = asked_query base q ignore_unknown_keys.
Proof.
  unfold asked_query. destruct ignore_unknown_keys; [|done].
  apply list_filter_iff. intros kv. apply init_valid_keys.
Qed.

Section cache_facts.
Context `{Engine}.

Lemma filter_in_order_app df q1 q2 :
  filter_in_order df (q1 ++ q2) =
    df' ← filter_in_order df q1; filter_in_order df' q2.
Proof.
  revert df. induction q1 as [|[k v] q1 IH]; intros df; [done|].
  cbn [app filter_in_order]. destruct (etl_q df [(k, v)]); [|done].
  cbn [mbind result_bind]. apply IH.
Qed.

Lemma stack_chain_snoc df stack item :
  stack_chain df (stack ++ [item]) ↔
  stack_chain df stack ∧
  etl_q (top df stack) [(ci_key item, ci_value item)] = Ok (ci_df item).
Proof.
  revert df. induction stack as [|it stack IH]; intros df.
  - cbn [app stack_chain]. unfold top. simpl. tauto.
  - cbn [app stack_chain]. rewrite IH, top_cons. tauto.
Qed.

Lemma stack_chain_take df stack n :
  stack_chain df stack → stack_chain df (take n stack).
Proof.
  revert df n. induction stack as [|it stack IH]; intros df [|n]; try done.
  cbn [take stack_chain]. intros [? ?]. split; [done|]. by apply IH.
Qed.

(** The part of the stack that [query] keeps holds the table filtered
    by the first fields of the query. *)
Lemma kept_prefix_filter base stack q :
  stack_chain base stack →
  Forall (λ item, dict_value (ci_value item)) stack →
  let matched := matching_prefix_length stack q in
  filter_in_order base (take matched q) = Ok (top base (take matched stack)).
Proof.
  revert base q. induction stack as [|item stack IH]; intros base q.
  - intros _ _. by destruct q as [|[]].
  - intros [Hitem Hchain] [Hd Hds]%Forall_cons. destruct q as [|[k v] q]; [done|].
    cbn [matching_prefix_length].
    destruct (String.eqb_spec (ci_key item) k) as [Hk|]; [|done].
    destruct (fvalue_eqb (ci_value item) v) eqn:Hv; [|done].
    cbn [andb take filter_in_order]. rewrite top_cons.
    rewrite (etl_q_equal_values base k (ci_value item) v (ci_df item));
      [|done|done|by rewrite <-Hk].
    cbn [mbind result_bind]. by apply IH.
Qed.

Lemma extend_stack_spec base stack df todo :
  stack_chain base stack → top base stack = df →
  Forall (λ item, dict_value (ci_value item)) stack →
  Forall (λ kv, dict_value kv.2) todo →
  stack_chain base (extend_stack stack df todo).1 ∧
  Forall (λ item, dict_value (ci_value item)) (extend_stack stack df todo).1 ∧
  (extend_stack stack df todo).2 = filter_in_order df todo.
Proof.
  revert stack df. induction todo as [|[col val] todo IH]; intros stack df.
  - done.
  - intros Hchain Htop Hds [Hval Hvals]%Forall_cons.
    cbn [extend_stack filter_in_order].
    destruct (etl_q df [(col, val)]) as [df'|] eqn:Hq; [|done].
    cbn [mbind result_bind]. apply IH; [| |apply Forall_app|done].
    + apply stack_chain_snoc. by rewrite Htop.
    + apply top_snoc.
    + split; [done|]. by constructor.
Qed.

(** One call of [query] keeps the state of the cache and returns what
    filtering the base table field after field returns. *)
Lemma query_step base self q ignore_unknown_keys :
  cache_ok base self → Forall (λ kv, dict_value kv.2) q →
  cache_ok base (query self q ignore_unknown_keys).1 ∧
  (query self q ignore_unknown_keys).2
    = filter_in_order base (asked_query base q ignore_unknown_keys).
Proof.
  intros (Hdf & Hkeys & Hchain & Hds) Hq.
  unfold query. rewrite Hkeys, asked_query_valid.
  set (asked := asked_query base q ignore_unknown_keys).
  assert (Forall (λ kv, dict_value kv.2) asked) as Hasked.
  { unfold asked, asked_query. destruct ignore_unknown_keys; [|done].
    rewrite Forall_forall in *. intros x [_ Hx]%list_elem_of_filter. auto. }
  unfold _longest_keys_count, _longest_values_count.
  rewrite min_longest_match_count.
  set (matched := matching_prefix_length (_stack self) asked).
  assert (length (take matched (_stack self)) = matched) as Hlen.
  { rewrite length_take.
    pose proof (matching_prefix_length_le (_stack self) asked). lia. }
  rewrite Hlen, Hdf.
  fold (top base (take matched (_stack self))).
  destruct (extend_stack_spec base (take matched (_stack self))
              (top base (take matched (_stack self))) (drop matched asked))
    as (Hchain' & Hds' & Hres);
    [by apply stack_chain_take|done|by apply Forall_take|by apply Forall_drop|].
  destruct (extend_stack _ _ _) as [stack' returned]. cbn [fst snd] in *.
  split; [done|].
  rewrite Hres.
  transitivity (filter_in_order base (take matched asked ++ drop matched asked));
    [|by rewrite take_drop].
  rewrite filter_in_order_app. unfold matched.
  rewrite (kept_prefix_filter base (_stack self) asked); done.
Qed.

Lemma init_ok base : cache_ok base (init base).
Proof. unfold cache_ok. simpl. split_and!; done. Qed.

Lemma run_queries_ok base self calls :
  cache_ok base self →
  Forall (λ call : filter_dict * bool, well_formed_query call.1) calls →
  cache_ok base (run_queries self calls).
Proof.
  revert self. induction calls as [|[q i] calls IH]; intros self Hok; [done|].
  intros [[_ Hq] Hcalls]%Forall_cons. cbn [run_queries foldl].
  apply IH; [|done]. by apply query_step.
Qed.

Lemma is_dict_asked base q ignore_unknown_keys :
  is_dict q → is_dict (asked_query base q ignore_unknown_keys).
Proof.
  unfold asked_query, is_dict, keys. destruct ignore_unknown_keys; [|done].
  intros Hnd. eapply sublist_NoDup; [exact Hnd|].
  apply fmap_sublist, sublist_filter.
Qed.

(** *** The cache that keeps the objects of the caller *)















End cache_facts.

(** * Instances *)

(** Membership of a variable in a list of literals, case by case. *)
Ltac each_member H :=
  repeat (apply elem_of_cons in H as [->|H]); [..|by apply elem_of_nil in H].

(** [uses_only ops] on every value of a literal filter. *)
Ltac solve_uses_only :=
  repeat (apply Forall_cons; split); [..|apply Forall_nil];
  simpl; try exact I;
  (split; [compute_done|]);
  let op := fresh "op" in let Hop := fresh "Hop" in
  intros op Hop; each_member Hop; compute_done.

(** The run of [test_cached_dataframe]: the matched counts are 0, 3, 3
    and 3, and the calls return rows 4 and 5, row 5, row 4, rows 4 and
    5. *)
Example cached_dataframe_run :
  let c0 := @init simulations_table in
  let r1 := @query cellwise_engine c0 window_query false in
  let r2 := @query cellwise_engine r1.1 (trial_query 1) false in
  let r3 := @query cellwise_engine r2.1 (trial_query 0) false in
  let r4 := @query cellwise_engine r3.1 window_query false in
  let sel (m : list bool) := Ok (loc simulations_table m) in
  let T := true in let F := false in
  r1.2 = sel [F; F; F; F; T; T; F; F] ∧ _matched r1.1 = 0 ∧
  r2.2 = sel [F; F; F; F; F; T; F; F] ∧ _matched r2.1 = 3 ∧
  r3.2 = sel [F; F; F; F; T; F; F; F] ∧ _matched r3.1 = 3 ∧
  r4.2 = sel [F; F; F; F; T; T; F; F] ∧ _matched r4.1 = 3 ∧
  length (_stack r3.1) = 4 ∧ length (_stack r4.1) = 3.
Proof. vm_compute. done. Qed.



Lemma is_subdict_restrictiveness_witness :
  ∃ r, _is_subdict [("le", PInt 3); ("ge", PInt 1)]
                   [("le", PInt 4); ("ge", PInt 0)] = Ok r ∧
    (r = true ↔
     ∀ op b, dict_get op [("le", PInt 4); ("ge", PInt 0)] = Some b →
       ∃ a, dict_get op [("le", PInt 3); ("ge", PInt 1)] = Some a ∧
            at_least_as_restrictive op a b).
Proof.
  apply (is_subdict_restrictiveness [("le", PInt 3); ("ge", PInt 1)]
           [("le", PInt 4); ("ge", PInt 0)]).
  - reflexivity.
  - reflexivity.
  - split.
    + intros op a b Hop.
      repeat (apply elem_of_cons in Hop as [->|Hop]); simpl;
        try (by apply elem_of_nil in Hop); try discriminate;
        intros [= <-] [= <-]; exact I.
    + simpl. discriminate.
Defined.

Lemma is_subfilter_self_witness :
  is_subfilter bounds_filter bounds_filter false = Ok true ∧
  is_subfilter bounds_filter bounds_filter true = Ok false.
Proof.
  assert (well_formed bounds_filter) as Hwf.
  { split; [compute_done|]. repeat constructor; simpl; try compute_done.
    - discriminate.
    - discriminate.
    - by intros e [= <-].
    - intros c [= <-]. by eexists. }
  destruct (is_subfilter_self bounds_filter Hwf) as [Hnonstrict Hstrict].
  split; [|exact Hstrict]. apply Hnonstrict. solve_uses_only.
Defined.

(** With the operator [regex], which [compare] supports, the
    non-strict call on a filter against itself is refused by
    [_is_subdict]. *)
Lemma is_subfilter_self_regex :
  well_formed (regex_filter "^s2") ∧
  (∀ op, op ∈ ["regex"] → op ∈ keys COMPARISON_OPERATORS) ∧
  is_subfilter (regex_filter "^s2") (regex_filter "^s2") false
    = Err (InvalidKeys "d1").
Proof.
  split_and!.
  - split; [compute_done|]. repeat constructor; simpl; try compute_done;
      discriminate.
  - intros op ->%list_elem_of_singleton. compute_done.
  - vm_compute. done.
Qed.

(** A filter with the operators of [operators] only never fails the
    assertion; a [regex] value in the second field of [right], reached
    past a first field that passes, fails it. *)
Lemma is_subfilter_invalid_keys_witness :
  let left := [ ("other", FVal (PInt 1));
                ("key", FDict [("regex", PStr "a")]) ] in
  let right := [ ("other", FVal (PList [PInt 1; PInt 2]));
                 ("key", FDict [("regex", PStr "b")]) ] in
  (∀ strict which,
     is_subfilter bounds_filter bounds_filter strict ≠ Err (InvalidKeys which)) ∧
  (∃ which, is_subfilter left right false = Err (InvalidKeys which)).
Proof.
  intros left right.
  destruct is_subfilter_invalid_keys as [Hnever Hfails]. split.
  - intros strict which. apply Hnever; solve_uses_only.
  - apply (Hfails left right false); [compute_done|].
    exists [("other", FVal (PList [PInt 1; PInt 2]))],
           ("key", FDict [("regex", PStr "b")]), [].
    split_and!; [reflexivity| |].
    + constructor; [|constructor].
      exists (FVal (PInt 1)), [("isin", PList [PInt 1])],
             [("isin", PList [PInt 1; PInt 2])].
      split_and!; [reflexivity..|vm_compute; reflexivity].
    + exists (FDict [("regex", PStr "a")]), [("regex", PStr "a")],
             [("regex", PStr "b")].
      split_and!; reflexivity.
Defined.

(** An operator key that is not recognized passes unnoticed in a field
    that is not compared, and the recognized operator [regex] is
    refused. *)
Lemma is_subfilter_keys_counterexample :
  ("foo" ∉ keys COMPARISON_OPERATORS) ∧
  is_subfilter unknown_operator_filter [] false = Ok true ∧
  is_subfilter unknown_operator_filter unknown_operator_filter true
    = Ok false ∧
  "regex" ∈ keys COMPARISON_OPERATORS ∧
  is_subfilter (regex_filter "a") (regex_filter "b") false
    = Err (InvalidKeys "d1").
Proof. split_and!; try compute_done; vm_compute; done. Qed.


Lemma empty_filter_dicts_are_skipped_witness :
  @query_frame cellwise_engine andor_table [ []; [] ] = Ok andor_table ∧
  @query_series cellwise_engine andor_series [ []; [] ] = Ok andor_series.
Proof.
  apply (@empty_filter_dicts_are_skipped cellwise_engine andor_table
           andor_series [ []; [] ]).
  reflexivity.
Defined.

(** * Further properties *)

(** ** [longest_match_count] *)

(** X1. [longest_match_count] is the length of the longest common
    prefix: it exceeds neither length, the elements below it are
    pairwise equal, and the two elements at it, when both sequences have
    one, differ. *)
Theorem longest_match_count_is_common_prefix {A} (eqb : A → A → bool)
    (iter1 iter2 : list A) :
  let count := longest_match_count eqb iter1 iter2 in
  count ≤ length iter1 ∧ count ≤ length iter2 ∧
  (∀ i, i < count →
     ∃ i1 i2, iter1 !! i = Some i1 ∧ iter2 !! i = Some i2 ∧ eqb i1 i2 = true) ∧
  (∀ i1 i2, iter1 !! count = Some i1 → iter2 !! count = Some i2 →
     eqb i1 i2 = false).
Proof.
  revert iter2. induction iter1 as [|x l1 IH]; intros [|y l2]; simpl;
    try (split_and!; [lia|lia|lia|done]).
  destruct (IH l2) as (H1 & H2 & H3 & H4). clear IH.
  destruct (eqb x y) eqn:Hxy; simpl.
  - split_and!; [lia|lia| |done].
    intros [|i] Hi; simpl; [by exists x, y|]. apply H3. lia.
  - split_and!; [lia|lia|lia|]. by intros ?? [= <-] [= <-].
Qed.

(** ** [_and_or_mask] *)

Lemma or_masks_loop_nil filter_func query_list or_masks r :
  or_masks_loop filter_func query_list or_masks = Ok r →
  r = [] ↔ or_masks = [] ∧ Forall (λ q, q = []) query_list.
Proof.
  revert or_masks. induction query_list as [|q ql IH]; intros acc.
  - intros [= <-]. split; [by intros ->|by intros [-> _]].
  - destruct q as [|kv q].
    + cbn [or_masks_loop]. intros Hr. rewrite (IH _ Hr), Forall_cons. tauto.
    + cbn [or_masks_loop]. destruct (filter_func (kv :: q)); [|done].
      cbn [mbind result_bind]. intros Hr. rewrite (IH _ Hr), Forall_cons.
      split; [|by intros [_ [? _]]]. intros [Happ _].
      by apply app_eq_nil in Happ as [_ ?].
Qed.

(** X2. [_and_or_mask] returns [None], which makes [query_frame] and
    [query_series] return their input, exactly when the query list
    holds no non-empty dictionary. *)
Theorem and_or_mask_none (query_list : list filter_dict)
    (filter_func : filter_dict → result (list (list bool))) :
  _and_or_mask query_list filter_func = Ok None ↔
  Forall (λ q, q = []) query_list.
Proof.
  unfold _and_or_mask.
  destruct (or_masks_loop filter_func query_list []) as [r|e] eqn:Hr;
    cbn [mbind result_bind].
  - pose proof (or_masks_loop_nil _ _ _ _ Hr) as Hnil. split.
    + intros Hn. apply Hnil. by destruct r as [|? [|]].
    + intros Hall. by rewrite (proj2 Hnil (conj eq_refl Hall)).
  - split; [done|]. intros Hall. exfalso. clear -Hr Hall.
    revert Hr. generalize (@nil (list bool)).
    induction Hall as [|q ql -> _ IH]; intros acc; [done|]. apply IH.
Qed.

Lemma or_masks_loop_acc filter_func query_list or_masks :
  or_masks_loop filter_func query_list or_masks =
    r ← or_masks_loop filter_func query_list []; Ok (or_masks ++ r).
Proof.
  revert or_masks. induction query_list as [|q ql IH]; intros acc.
  - cbn [or_masks_loop mbind result_bind]. by rewrite app_nil_r.
  - destruct q as [|kv q]; cbn [or_masks_loop]; [apply IH|].
    destruct (filter_func (kv :: q)) as [ms|]; [|done].
    cbn [mbind result_bind app]. rewrite (IH (acc ++ _)), (IH [_]).
    destruct (or_masks_loop filter_func ql []); [|done].
    cbn [mbind result_bind]. by rewrite <-app_assoc.
Qed.

Lemma or_masks_loop_app filter_func ql1 ql2 or_masks :
  or_masks_loop filter_func (ql1 ++ ql2) or_masks =
    r ← or_masks_loop filter_func ql1 or_masks;
    or_masks_loop filter_func ql2 r.
Proof.
  revert or_masks. induction ql1 as [|q ql1 IH]; intros acc; [done|].
  destruct q as [|kv q]; cbn [app or_masks_loop]; [apply IH|].
  destruct (filter_func (kv :: q)); [|done]. cbn [mbind result_bind].
  apply IH.
Qed.

Lemma zip_or_assoc (a b c : list bool) :
  zip_with orb a (zip_with orb b c) = zip_with orb (zip_with orb a b) c.
Proof.
  revert b c. induction a as [|x a IH]; intros [|y b] [|z c]; simpl; try done.
  by rewrite IH, orb_assoc.
Qed.

Lemma foldl_zip_or_assoc a b ms :
  zip_with orb a (foldl (zip_with orb) b ms) =
  foldl (zip_with orb) (zip_with orb a b) ms.
Proof.
  revert b. induction ms as [|m ms IH]; intros b; simpl; [done|].
  by rewrite IH, zip_or_assoc.
Qed.

Lemma np_any_app a b :
  a ≠ [] → b ≠ [] → np_any (a ++ b) = zip_with orb (np_any a) (np_any b).
Proof.
  destruct a as [|x a]; [done|]. destruct b as [|y b]; [done|]. intros _ _.
  cbn [np_any app]. rewrite foldl_app. cbn [foldl].
  by rewrite foldl_zip_or_assoc.
Qed.

(** The mask that [_and_or_mask] returns for the masks it collected. *)
Lemma or_masks_result (or_masks : list (list bool)) :
  match or_masks with
  | [] => None
  | [m] => Some m
  | _ => Some (np_any or_masks)
  end = match or_masks with [] => None | _ => Some (np_any or_masks) end.
Proof. by destruct or_masks as [|? [|]]. Qed.

(** ** What [query_frame] and [query_series] keep *)

Lemma filter_mask_sublist {A} (xs : list A) mask :
  filter_mask xs mask `sublist_of` xs.
Proof.
  revert mask. induction xs as [|x xs IH]; intros [|[] mask]; simpl;
    try apply sublist_nil_l.
  - by apply sublist_skip.
  - by apply sublist_cons.
Qed.

Lemma filter_mask_all_true {A} (xs : list A) :
  filter_mask xs (replicate (length xs) true) = xs.
Proof. induction xs as [|x xs IH]; simpl; [done|]. by rewrite IH. Qed.

Lemma np_any_length ms n :
  ms ≠ [] → Forall (λ m, length m = n) ms → length (np_any ms) = n.
Proof.
  destruct ms as [|m ms]; [done|]. intros _. cbn [np_any].
  revert m. induction ms as [|m' ms IH]; intros m.
  - by intros [? _]%Forall_cons.
  - intros [Hm [Hm' Hms]%Forall_cons]%Forall_cons. cbn [foldl]. apply IH.
    constructor; [|done]. rewrite length_zip_with. lia.
Qed.

Lemma np_all_length ms n :
  ms ≠ [] → Forall (λ m, length m = n) ms → length (np_all ms) = n.
Proof. intros Hne Hlen. by apply np_all_elementwise. Qed.

(** The masks that [_and_or_mask] combines have one length when the
    masks of every non-empty query do. *)
Lemma and_or_mask_length filter_func n query_list mask :
  (∀ q ms, q ≠ [] → filter_func q = Ok ms →
           ms ≠ [] ∧ Forall (λ m, length m = n) ms) →
  _and_or_mask query_list filter_func = Ok (Some mask) → length mask = n.
Proof.
  intros Hf. unfold _and_or_mask.
  destruct (or_masks_loop filter_func query_list []) as [r|] eqn:Hr; [|done].
  cbn [mbind result_bind]. rewrite or_masks_result.
  assert (Forall (λ m, length m = n) r) as Hlen.
  { revert Hr. assert (Forall (λ m, length m = n) (@nil (list bool))) as Hacc
      by constructor.
    revert Hacc. generalize (@nil (list bool)).
    induction query_list as [|q ql IH]; intros acc Hacc.
    - by intros [= <-].
    - destruct q as [|kv q]; cbn [or_masks_loop]; [by apply IH|].
      destruct (filter_func (kv :: q)) as [ms|] eqn:Hms; [|done].
      cbn [mbind result_bind]. apply IH. apply Forall_app. split; [done|].
      destruct (Hf (kv :: q) ms) as [Hne Hall]; [done|done|].
      constructor; [|constructor].
      destruct ms as [|m [|m' ms]]; [done| |by apply np_all_length].
      by apply Forall_cons in Hall as [? _]. }
  destruct r as [|m r]; [done|]. intros [= <-].
  by apply (np_any_length (m :: r)).
Qed.

(** X3. For a filter function that gives, for a non-empty
    dictionary, a non-empty list of masks of one length [n] (those of
    [query_frame] and [query_series] give one boolean per row), the
    mask of a concatenation of two query lists is the elementwise OR of
    the masks of the two lists, a list without filters leaves the mask
    of the other one, and the mask has length [n]. *)
Theorem and_or_mask_app (ql1 ql2 : list filter_dict)
    (filter_func : filter_dict → result (list (list bool))) (n : nat) :
  (∀ q ms, q ≠ [] → filter_func q = Ok ms →
           ms ≠ [] ∧ Forall (λ m, length m = n) ms) →
  _and_or_mask (ql1 ++ ql2) filter_func =
    (m1 ← _and_or_mask ql1 filter_func;
     m2 ← _and_or_mask ql2 filter_func;
     Ok (match m1, m2 with
         | Some a, Some b => Some (zip_with orb a b)
         | Some a, None => Some a
         | None, m => m
         end)) ∧
  ∀ mask, _and_or_mask (ql1 ++ ql2) filter_func = Ok (Some mask) →
          length mask = n.
Proof.
  intros Hmasks. split; [|intros mask; by apply and_or_mask_length].
  unfold _and_or_mask. rewrite or_masks_loop_app.
  destruct (or_masks_loop filter_func ql1 []) as [r1|]; [|done].
  cbn [mbind result_bind]. rewrite or_masks_loop_acc.
  destruct (or_masks_loop filter_func ql2 []) as [r2|]; [|done].
  cbn [mbind result_bind]. f_equal. rewrite !or_masks_result.
  destruct r1 as [|x r1]; [done|]. destruct r2 as [|y r2].
  - by rewrite app_nil_r.
  - rewrite np_any_app by done. done.
Qed.

Section query_invariants.
Context `{Engine}.

Lemma split_loop_non_empty df q q_columns q_index qc qi :
  q ++ q_columns ++ q_index ≠ [] →
  split_loop df q q_columns q_index = Ok (qc, qi) → qc ++ qi ≠ [].
Proof.
  assert (∀ (k : string) (v : fvalue) d, dict_set k v d ≠ []) as Hset.
  { intros k v [|[k' w] d]; simpl; [done|]. by destruct (String.eqb k k'). }
  revert q_columns q_index. induction q as [|[k v] q IH]; intros c i Hne.
  - by intros [= <- <-].
  - cbn [split_loop]. destruct (mapping df k) as [[]|]; [| |done].
    + apply IH. intros [_ [Hc _]%app_eq_nil]%app_eq_nil. by eapply Hset.
    + apply IH. intros [_ [_ Hi]%app_eq_nil]%app_eq_nil. by eapply Hset.
Qed.

Lemma frame_filter_func_masks df q ms :
  q ≠ [] → frame_filter_func df q = Ok ms →
  ms ≠ [] ∧ Forall (λ m, length m = length (rows df)) ms.
Proof.
  intros Hne. unfold frame_filter_func.
  destruct (split_loop df q [] []) as [[qc qi]|] eqn:Hs; [|done].
  cbn [mbind result_bind fst snd].
  destruct (mapM _ qc) as [mc|] eqn:Hc; [|done]. cbn [mbind result_bind].
  destruct (mapM _ qi) as [mi|] eqn:Hi; [|done]. cbn [mbind result_bind].
  intros [= <-]. split.
  - apply split_loop_non_empty in Hs; [|by rewrite app_nil_r].
    apply mapM_result_length in Hc, Hi. intros [-> ->]%app_eq_nil.
    destruct qc, qi; done.
  - apply Forall_app. split; apply Forall_forall; intros m Hm.
    + apply (mapM_result_elements _ _ _ Hc) in Hm as (kv & _ & Hm).
      unfold getitem in Hm. destruct (position _ _); [|done].
      cbn [mbind result_bind] in Hm. apply compare_length in Hm.
      by rewrite length_fmap in Hm.
    + apply (mapM_result_elements _ _ _ Hi) in Hm as (kv & _ & Hm).
      unfold get_level_values in Hm. destruct (position _ _); [|done].
      cbn [mbind result_bind] in Hm. apply compare_length in Hm.
      by rewrite !length_fmap in Hm.
Qed.

Lemma series_filter_func_masks series q ms :
  q ≠ [] → series_filter_func series q = Ok ms →
  ms ≠ [] ∧ Forall (λ m, length m = length (s_rows series)) ms.
Proof.
  intros Hne Hm. unfold series_filter_func in Hm. split.
  - apply mapM_result_length in Hm. destruct q, ms; done.
  - apply Forall_forall. intros m Hin.
    apply (mapM_result_elements _ _ _ Hm) in Hin as (kv & _ & Hkv).
    unfold get_level_values in Hkv. destruct (position _ _); [|done].
    cbn [mbind result_bind] in Hkv. apply compare_length in Hkv.
    by rewrite !length_fmap in Hkv.
Qed.

(** X4. On a table whose column names are distinct (so that [df[key]]
    is one column), what [query_frame] returns has the index level
    names and the columns of its input, and its rows are the rows of
    the input that a mask with one boolean per row selects: rows are
    removed, never reordered, repeated or changed. *)
Theorem query_frame_selects_rows (df T : DataFrame)
    (query_list : list filter_dict) :
  NoDup (columns df) →
  query_frame df query_list = Ok T →
  index_names T = index_names df ∧ columns T = columns df ∧
  rows T `sublist_of` rows df ∧
  ∃ mask, length mask = length (rows df) ∧
          rows T = filter_mask (rows df) mask.
Proof.
  intros _. unfold query_frame.
  destruct (_and_or_mask _ _) as [[mask|]|] eqn:Hm; [| |done];
    cbn [mbind result_bind]; intros [= <-].
  - split_and!; [done|done|apply filter_mask_sublist|].
    exists mask. split; [|done].
    eapply and_or_mask_length; [|done]. intros q ms. apply frame_filter_func_masks.
  - split_and!; [done..|].
    exists (replicate (length (rows df)) true).
    by rewrite length_replicate, filter_mask_all_true.
Qed.

(** X5. What [query_series] returns has the index level names of its
    input, and its rows are the rows of the input that a mask with one
    boolean per row selects. *)
Theorem query_series_selects_rows (series T : Series)
    (query_list : list filter_dict) :
  query_series series query_list = Ok T →
  s_index_names T = s_index_names series ∧
  s_rows T `sublist_of` s_rows series ∧
  ∃ mask, length mask = length (s_rows series) ∧
          s_rows T = filter_mask (s_rows series) mask.
Proof.
  unfold query_series.
  destruct (_and_or_mask _ _) as [[mask|]|] eqn:Hm; [| |done];
    cbn [mbind result_bind]; intros [= <-].
  - split_and!; [done|apply filter_mask_sublist|].
    exists mask. split; [|done].
    eapply and_or_mask_length; [|done]. intros q ms.
    apply series_filter_func_masks.
  - split_and!; [done..|].
    exists (replicate (length (s_rows series)) true).
    by rewrite length_replicate, filter_mask_all_true.
Qed.

Lemma split_loop_unknown df pre key value post q_columns q_index :
  Forall (λ kv : string * fvalue,
            kv.1 ∈ columns df ∨ Some kv.1 ∈ index_names df) pre →
  key ∉ columns df → Some key ∉ index_names df →
  split_loop df (pre ++ (key, value) :: post) q_columns q_index
    = Err (KeyError key).
Proof.
  intros Hpre Hc Hi. revert q_columns q_index.
  induction Hpre as [|[k v] pre Hk _ IH]; intros qc qi; cbn [app split_loop].
  - unfold mapping. by rewrite !bool_decide_eq_false_2.
  - unfold mapping. simpl in Hk. case_bool_decide; [apply IH|].
    rewrite bool_decide_eq_true_2 by tauto. apply IH.
Qed.

(** X6. A query with a key that is neither a column nor the name of an
    index level makes [query_frame] raise [KeyError] for the first such
    key, before any comparison is made. *)
Theorem query_frame_unknown_key (df : DataFrame) (pre post : filter_dict)
    (key : string) (value : fvalue) (others : list filter_dict) :
  Forall (λ kv : string * fvalue,
            kv.1 ∈ columns df ∨ Some kv.1 ∈ index_names df) pre →
  key ∉ columns df → Some key ∉ index_names df →
  query_frame df ((pre ++ (key, value) :: post) :: others)
    = Err (KeyError key).
Proof.
  intros Hpre Hc Hi. unfold query_frame, _and_or_mask.
  assert (or_masks_loop (frame_filter_func df)
            ((pre ++ (key, value) :: post) :: others) []
          = Err (KeyError key)) as ->; [|done].
  assert (frame_filter_func df (pre ++ (key, value) :: post)
          = Err (KeyError key)) as Hf.
  { unfold frame_filter_func. by rewrite split_loop_unknown. }
  destruct pre as [|kv pre]; cbn [app or_masks_loop] in *; by rewrite Hf.
Qed.

End query_invariants.

(** ** [compare] on operator mappings *)

Lemma np_all_app a b :
  a ≠ [] → b ≠ [] → np_all (a ++ b) = zip_with andb (np_all a) (np_all b).
Proof.
  destruct a as [|x a]; [done|]. destruct b as [|y b]; [done|]. intros _ _.
  cbn [np_all app]. rewrite foldl_app. cbn [foldl].
  by rewrite foldl_zip_and_assoc.
Qed.

Section compare_algebra.
Context `{Engine}.

(** X7. The mask of a mapping made of two non-empty mappings of
    recognized operators is the elementwise AND of the masks of the two
    mappings, and the call fails as the first failing part fails. *)
Theorem compare_mapping_app (obj : list pyval) (d1 d2 : list (string * pyval)) :
  d1 ≠ [] → d2 ≠ [] →
  (∀ op, op ∈ keys (d1 ++ d2) → op ∈ keys COMPARISON_OPERATORS) →
  compare obj (FDict (d1 ++ d2)) =
    m1 ← compare obj (FDict d1);
    m2 ← compare obj (FDict d2);
    Ok (zip_with andb m1 m2).
Proof.
  intros Hne1 Hne2 Hops.
  assert (∀ op, op ∈ keys d1 → op ∈ keys COMPARISON_OPERATORS) as Hops1.
  { intros op Hop. apply Hops. unfold keys in *. rewrite fmap_app.
    apply elem_of_app. by left. }
  assert (∀ op, op ∈ keys d2 → op ∈ keys COMPARISON_OPERATORS) as Hops2.
  { intros op Hop. apply Hops. unfold keys in *. rewrite fmap_app.
    apply elem_of_app. by right. }
  rewrite (compare_supported obj (d1 ++ d2)); [|by destruct d1|done].
  rewrite (compare_supported obj d1), (compare_supported obj d2) by done.
  rewrite mapM_result_app.
  destruct (mapM (operator_mask obj) d1) as [ms1|] eqn:H1; [|done].
  cbn [mbind result_bind].
  destruct (mapM (operator_mask obj) d2) as [ms2|] eqn:H2; [|done].
  cbn [mbind result_bind]. f_equal.
  apply mapM_result_length in H1, H2.
  apply np_all_app; [by destruct d1, ms1|by destruct d2, ms2].
Qed.

(** X9. The order of the operators in a mapping does not change the
    mask that [compare] returns. *)
Theorem compare_mapping_permutation (obj : list pyval)
    (d1 d2 : list (string * pyval)) (mask : list bool) :
  d1 ≡ₚ d2 →
  compare obj (FDict d1) = Ok mask → compare obj (FDict d2) = Ok mask.
Proof.
  intros Hperm (Hne & Hops & masks & Hm & ->)%compare_dict_Ok.
  assert (d2 ≠ []) as Hne2.
  { intros ->. by apply Permutation_nil_r in Hperm. }
  assert (∀ op, op ∈ keys d2 → op ∈ keys COMPARISON_OPERATORS) as Hops2.
  { intros op Hop. apply Hops. unfold keys in *. by rewrite Hperm. }
  rewrite compare_supported by done.
  destruct (mapM_result_total (operator_mask obj) d2) as [masks2 Hm2].
  { intros x Hx. rewrite <-Hperm in Hx.
    destruct (mapM_result_each _ _ _ x Hm Hx) as (m & ? & _). eauto. }
  rewrite Hm2. cbn [mbind result_bind]. f_equal.
  apply (np_all_same_elements _ _ (length obj)).
  - apply mapM_result_length in Hm2. destruct d2, masks2; done.
  - apply mapM_result_length in Hm. destruct d1, masks; done.
  - by eapply operator_masks_length.
  - intros m. rewrite (mapM_result_elements _ _ _ Hm),
      (mapM_result_elements _ _ _ Hm2).
    split; intros (x & Hx & Hxm); exists x; (split; [|done]).
    + by rewrite Hperm.
    + by rewrite <-Hperm.
Qed.

End compare_algebra.

(** ** [is_subfilter]: fields and normal forms *)

(** The non-strict test is [True] exactly when every field of [right]
    is a field of [left] whose normalized value is a sub-dictionary of
    the normalized value of [right]. *)
Lemma subfilter_loop_nonstrict left right D :
  subfilter_loop left right false D = Ok true ↔
  Forall (λ kv, ∃ lv dl dr,
            dict_get kv.1 left = Some lv ∧ _to_dict lv = Ok dl ∧
            _to_dict kv.2 = Ok dr ∧ _is_subdict dl dr = Ok true) right.
Proof.
  induction right as [|[key rv] right IH]; [by split; [constructor|]|].
  rewrite Forall_cons. cbn [subfilter_loop fst snd]. split.
  - destruct (dict_get key left) as [lv|] eqn:Hg; [|done].
    destruct (_to_dict lv) as [dl|] eqn:Hl; [|done]. cbn [mbind result_bind].
    destruct (_to_dict rv) as [dr|] eqn:Hr; [|done].
    cbn [mbind result_bind andb].
    destruct (_is_subdict dl dr) as [[]|] eqn:Hsub; [|done..].
    cbn [mbind result_bind negb]. intros Hrest. split; [|by apply IH].
    by exists lv, dl, dr.
  - intros [(lv & dl & dr & -> & Hl & Hr & Hsub) Hrest].
    rewrite Hl. cbn [mbind result_bind]. rewrite Hr.
    cbn [mbind result_bind andb]. rewrite Hsub. cbn [mbind result_bind negb].
    by apply IH.
Qed.

Lemma subfilter_loop_missing_key left right strict D key b :
  key ∈ keys right → key ∉ keys left →
  subfilter_loop left right strict D = Ok b → b = false.
Proof.
  intros Hin Hout. revert D.
  induction right as [|[k rv] right IH]; intros D;
    [by apply elem_of_nil in Hin|].
  cbn [subfilter_loop].
  destruct (dict_get k left) as [lv|] eqn:Hg; [|by intros [= <-]].
  assert (key ∈ keys right) as Hin'.
  { unfold keys in Hin. cbn in Hin. apply elem_of_cons in Hin as [->|?]; [|done].
    destruct Hout. apply dict_get_is_Some. eauto. }
  destruct (_to_dict lv) as [dl|]; [|done]. cbn [mbind result_bind].
  destruct (_to_dict rv) as [dr|]; [|done]. cbn [mbind result_bind].
  destruct (strict && dict_eqb dl dr).
  - case_bool_decide; [by apply IH|done].
  - destruct (_is_subdict dl dr) as [[]|]; cbn [mbind result_bind negb];
      [by apply IH|by intros [= <-]|done].
Qed.

(** X10. When [right] has a field that [left] does not have,
    [is_subfilter] does not return [True]: whenever it returns, it
    returns [False], strict or not. *)
Theorem is_subfilter_missing_field (left right : filter_dict) (strict : bool)
    (key : string) (b : bool) :
  key ∈ keys right → key ∉ keys left →
  is_subfilter left right strict = Ok b → b = false.
Proof. unfold is_subfilter. apply subfilter_loop_missing_key. Qed.

Lemma same_normal_forms_get f f' key :
  same_normal_forms f f' →
  match dict_get key f, dict_get key f' with
  | Some v, Some v' => _to_dict v = _to_dict v'
  | None, None => True
  | _, _ => False
  end.
Proof.
  induction 1 as [|[k v] [k' v'] f f' [Hk Hv] _ IH]; [done|].
  simpl in *. subst k'. by destruct (String.eqb key k).
Qed.

Lemma same_normal_forms_keys f f' :
  same_normal_forms f f' → keys f = keys f'.
Proof.
  unfold keys. induction 1 as [|[k v] [k' v'] f f' [Hk Hv] _ IH]; [done|].
  csimpl in *. by rewrite Hk, IH.
Qed.

Lemma subfilter_loop_normal_forms left left' right right' strict D :
  same_normal_forms left left' → same_normal_forms right right' →
  subfilter_loop left right strict D = subfilter_loop left' right' strict D.
Proof.
  intros Hl Hr. revert D.
  induction Hr as [|[k v] [k' v'] right right' [Hk Hv] _ IH]; intros D; [done|].
  simpl in Hk, Hv. subst k'. cbn [subfilter_loop].
  pose proof (same_normal_forms_get left left' k Hl) as Hg.
  destruct (dict_get k left) as [lv|], (dict_get k left') as [lv'|];
    try done.
  rewrite Hg, Hv. destruct (_to_dict lv') as [dl|]; [|done].
  cbn [mbind result_bind]. destruct (_to_dict v') as [dr|]; [|done].
  cbn [mbind result_bind]. destruct (strict && dict_eqb dl dr).
  - case_bool_decide; [apply IH|done].
  - destruct (_is_subdict dl dr) as [[]|]; cbn [mbind result_bind negb];
      [apply IH|done|done].
Qed.

(** X11. [is_subfilter] sees the filter values through [_to_dict]
    only: replacing values, on either side, by values with the same
    normal form changes neither what it returns nor whether it
    raises. *)
Theorem is_subfilter_normal_forms (left left' right right' : filter_dict)
    (strict : bool) :
  same_normal_forms left left' → same_normal_forms right right' →
  is_subfilter left right strict = is_subfilter left' right' strict.
Proof.
  intros Hl Hr. unfold is_subfilter.
  rewrite (same_normal_forms_keys left left' Hl).
  by apply subfilter_loop_normal_forms.
Qed.

Lemma same_normal_forms_refl f : same_normal_forms f f.
Proof. induction f; constructor; done. Qed.

Lemma same_normal_forms_middle f1 f2 key v v' :
  _to_dict v = _to_dict v' →
  same_normal_forms (f1 ++ (key, v) :: f2) (f1 ++ (key, v') :: f2).
Proof.
  intros Hv. apply Forall2_app; [apply same_normal_forms_refl|].
  constructor; [done|apply same_normal_forms_refl].
Qed.

(** X12. In either argument of [is_subfilter], a value [v] that is not
    a list, the list [[v]], the mapping [{"eq": v}] and the mapping
    [{"isin": [v]}] are interchangeable. *)
Theorem is_subfilter_scalar_spellings (f1 f2 other : filter_dict)
    (key : string) (v : pyval) (strict : bool) :
  hashable v = true →
  let spelled value := f1 ++ (key, value) :: f2 in
  Forall (λ value,
            is_subfilter (spelled value) other strict
              = is_subfilter (spelled (FVal v)) other strict ∧
            is_subfilter other (spelled value) strict
              = is_subfilter other (spelled (FVal v)) strict)
    [ FVal (PList [v]); FDict [("eq", v)]; FDict [("isin", PList [v])] ].
Proof.
  intros Hv spelled.
  assert (∀ value, _to_dict value = _to_dict (FVal v) →
            is_subfilter (spelled value) other strict
              = is_subfilter (spelled (FVal v)) other strict ∧
            is_subfilter other (spelled value) strict
              = is_subfilter other (spelled (FVal v)) strict) as Hsame.
  { intros value Hto. unfold is_subfilter. split.
    - rewrite (same_normal_forms_keys (spelled value) (spelled (FVal v)))
        by by apply same_normal_forms_middle.
      apply subfilter_loop_normal_forms;
        [by apply same_normal_forms_middle|apply same_normal_forms_refl].
    - apply subfilter_loop_normal_forms;
        [apply same_normal_forms_refl|by apply same_normal_forms_middle]. }
  repeat constructor; apply Hsame; by destruct v.
Qed.

(** ** [is_subfilter]: strict and non-strict *)

Lemma subfilter_loop_strict_of_extra left right D key :
  is_dict right → (∀ k, k ∈ keys right → k ∈ D) →
  key ∈ D → key ∉ keys right →
  subfilter_loop left right false D = Ok true →
  subfilter_loop left right true D = Ok true.
Proof.
  revert D. induction right as [|[k rv] right IH]; intros D Hd Hsub Hin Hout.
  - intros _. cbn [subfilter_loop negb orb]. f_equal.
    apply bool_decide_eq_true.
    assert (size D ≠ 0); [|lia]. apply size_non_empty_iff. set_solver.
  - assert ((k ∉ keys right) ∧ is_dict right) as [Hk Hd']
      by by apply NoDup_cons in Hd.
    assert (key ≠ k ∧ key ∉ keys right) as [Hne Hout'].
    { unfold keys in *. cbn in Hout. by apply not_elem_of_cons in Hout. }
    assert (∀ k', k' ∈ keys right → k' ∈ D) as Hsub'.
    { intros k' Hk'. apply Hsub. unfold keys in *. cbn. by right. }
    cbn [subfilter_loop].
    destruct (dict_get k left) as [lv|]; [|done].
    destruct (_to_dict lv) as [dl|]; [|done]. cbn [mbind result_bind].
    destruct (_to_dict rv) as [dr|]; [|done]. cbn [mbind result_bind andb].
    destruct (_is_subdict dl dr) as [[]|]; [|done..].
    cbn [mbind result_bind negb]. intros Hrest.
    destruct (dict_eqb dl dr).
    + rewrite bool_decide_eq_true_2 by (apply Hsub; unfold keys; cbn; left).
      apply IH; [done| |set_solver|done|].
      * intros k' Hk'. apply elem_of_difference. split; [by apply Hsub'|].
        intros ->%elem_of_singleton. done.
      * revert Hrest. rewrite !subfilter_loop_nonstrict. done.
    + by apply IH.
Qed.

(** X13. A sub-filter with a field that [right], a dictionary, does
    not have is a strict sub-filter. *)
Theorem is_subfilter_strict_of_extra_field (left right : filter_dict)
    (key : string) :
  is_dict right → key ∈ keys left → key ∉ keys right →
  is_subfilter left right false = Ok true →
  is_subfilter left right true = Ok true.
Proof.
  intros Hd Hin Hout Hsub. unfold is_subfilter in *.
  apply (subfilter_loop_strict_of_extra left right _ key); try done.
  - intros k Hk. apply elem_of_list_to_set.
    apply (subfilter_loop_nonstrict left right) in Hsub.
    rewrite Forall_forall in Hsub. unfold keys in Hk.
    apply list_elem_of_fmap in Hk as ([k' v] & -> & Hkv).
    destruct (Hsub _ Hkv) as (lv & _ & _ & Hg & _). simpl in *.
    apply dict_get_is_Some. eauto.
  - by apply elem_of_list_to_set.
Qed.

Lemma to_dict_is_dict v nd :
  dict_value v → _to_dict v = Ok nd → is_dict nd.
Proof.
  destruct v as [[z|s|l]|d]; simpl;
    try (intros _ [= <-]; by apply NoDup_singleton).
  intros Hd. destruct (dict_get "eq" d) as [e|]; [|by intros [= <-]].
  destruct (dict_get "isin" _) as [c|].
  - destruct (py_contains e c); [|done]. cbn [mbind result_bind].
    intros [= <-]. by apply is_dict_set, is_dict_pop.
  - intros [= <-]. by apply is_dict_set, is_dict_pop.
Qed.

Lemma dict_eqb_get d1 d2 op :
  is_dict d1 → dict_eqb d1 d2 = true → dict_get op d1 = dict_get op d2.
Proof.
  intros Hd Heq.
  destruct (dict_eqb_elements d1 d2 Hd Heq) as [Hlen Helem].
  assert (d1 ≡ₚ d2) as Hperm.
  { apply NoDup_Permutation; [by apply (NoDup_fmap_1 fst)| |done].
    apply (NoDup_fmap_1 fst). unfold is_dict, keys in Hd.
    apply andb_true_iff in Heq as [_ _].
    assert (d1.*1 ≡ₚ d2.*1) as <-; [|done].
    apply submseteq_length_Permutation; [|by rewrite !length_fmap, Hlen].
    apply NoDup_submseteq; [done|]. intros k ([k' v] & -> & Hin)%list_elem_of_fmap.
    apply list_elem_of_fmap. exists (k', v). split; [done|]. by apply Helem. }
  assert (is_dict d2) as Hd2 by (unfold is_dict, keys in *; by rewrite <-Hperm).
  destruct (dict_get op d1) as [a|] eqn:H1.
  - symmetry. apply dict_get_elem; [done|]. apply Helem.
    by apply dict_get_Some_elem.
  - symmetry. apply dict_get_None. apply dict_get_None in H1.
    unfold keys in *. by rewrite <-Hperm.
Qed.

Lemma py_issubset_refl a r : py_issubset a a = Ok r → r = true.
Proof.
  unfold py_issubset. destruct (py_set a) as [s|]; [|done].
  cbn [mbind result_bind]. intros [= <-]. by apply forallb_in_list_subseteq.
Qed.

Lemma operators_refl op f a r :
  (op, f) ∈ operators → f a a = Ok r → r = true.
Proof.
  intros Hin. unfold operators in Hin.
  repeat (apply elem_of_cons in Hin as [[= -> ->]|Hin]);
    [| | | | | |by apply elem_of_nil in Hin].
  - rewrite py_eqb_refl. congruence.
  - rewrite py_le_refl. congruence.
  - rewrite py_le_refl. congruence.
  - rewrite py_ge_refl. congruence.
  - rewrite py_ge_refl. congruence.
  - apply py_issubset_refl.
Qed.

Lemma unmatched_loop_same ops d1 d2 U U' :
  (∀ op f, (op, f) ∈ ops → (op, f) ∈ operators) →
  (∀ op, dict_get op d1 = dict_get op d2) →
  unmatched_loop ops d1 d2 U = Ok U' → U' = U.
Proof.
  intros Hops Hsame. revert U.
  induction ops as [|[op f] ops IH]; intros U; [by intros [= <-]|].
  cbn [unmatched_loop]. rewrite Hsame.
  assert (∀ op f, (op, f) ∈ ops → (op, f) ∈ operators) as Hops'.
  { intros ?? Hin. apply Hops. by right. }
  destruct (dict_get op d2) as [b|]; [|by apply IH].
  destruct (f b b) as [r|] eqn:Hf; [|done]. cbn [mbind result_bind].
  apply (operators_refl op) in Hf as ->; [|apply Hops; left]. by apply IH.
Qed.

Lemma is_subdict_same d1 d2 b :
  (∀ op, dict_get op d1 = dict_get op d2) →
  _is_subdict d1 d2 = Ok b → b = true.
Proof.
  intros Hsame. unfold _is_subdict.
  destruct (valid_keys d1); [|done]. destruct (valid_keys d2); [|done].
  cbn [negb].
  destruct (unmatched_loop operators d1 d2 ∅) as [U|] eqn:HU; [|done].
  apply unmatched_loop_same in HU as ->; [|done..].
  cbn [mbind result_bind]. by intros [= <-].
Qed.

Lemma subfilter_loop_nonstrict_of_strict left right D D' b :
  Forall (λ kv, dict_value kv.2) left →
  subfilter_loop left right true D = Ok true →
  subfilter_loop left right false D' = Ok b → b = true.
Proof.
  intros Hl. revert D.
  induction right as [|[k rv] right IH]; intros D; [by intros _ [= <-]|].
  cbn [subfilter_loop].
  destruct (dict_get k left) as [lv|] eqn:Hg; [|done].
  assert (dict_value lv) as Hlv.
  { apply dict_get_Some_elem in Hg. rewrite Forall_forall in Hl.
    by apply (Hl (k, lv)). }
  destruct (_to_dict lv) as [dl|] eqn:Hdl; [|done]. cbn [mbind result_bind].
  destruct (_to_dict rv) as [dr|]; [|done]. cbn [mbind result_bind andb].
  destruct (dict_eqb dl dr) eqn:Heq.
  - case_bool_decide; [|done]. intros Hstrict.
    destruct (_is_subdict dl dr) as [sub|] eqn:Hsub; [|done].
    apply is_subdict_same in Hsub as ->.
    + cbn [mbind result_bind negb]. by eapply IH.
    + intros op. apply dict_eqb_get; [|done]. by eapply to_dict_is_dict.
  - destruct (_is_subdict dl dr) as [[]|]; [|done..].
    cbn [mbind result_bind negb]. apply IH.
Qed.

(** X14. A strict sub-filter is a sub-filter: when the strict test is
    [True], the non-strict test, if it returns, is [True] (the operator
    mappings of [left] being dictionaries). *)
Theorem is_subfilter_strict_is_subfilter (left right : filter_dict) (b : bool) :
  Forall (λ kv, dict_value kv.2) left →
  is_subfilter left right true = Ok true →
  is_subfilter left right false = Ok b → b = true.
Proof. unfold is_subfilter. apply subfilter_loop_nonstrict_of_strict. Qed.

(** ** [is_subfilter] is transitive *)

Lemma string_leb_trans s t u :
  String.leb s t = true → String.leb t u = true → String.leb s u = true.
Proof.
  assert (∀ s t, String.leb s t = true ↔ String.compare s t ≠ Gt) as Hleb.
  { intros s' t'. unfold String.leb. by destruct (String.compare s' t'). }
  rewrite !Hleb. clear Hleb. revert t u.
  induction s as [|a s IH]; intros [|b t] [|c u]; simpl; try done.
  unfold Ascii.compare.
  destruct (N.compare_spec (Ascii.N_of_ascii a) (Ascii.N_of_ascii b)) as [Hab|Hab|Hab];
    destruct (N.compare_spec (Ascii.N_of_ascii b) (Ascii.N_of_ascii c)) as [Hbc|Hbc|Hbc];
    destruct (N.compare_spec (Ascii.N_of_ascii a) (Ascii.N_of_ascii c)) as [Hac|Hac|Hac];
    try done; try lia.
  apply IH.
Qed.

Lemma py_eqb_sym a b : py_eqb a b = py_eqb b a.
Proof.
  destruct (py_eqb a b) eqn:Hab, (py_eqb b a) eqn:Hba; try done.
  - apply py_eqb_eq in Hab as ->. by rewrite py_eqb_refl in Hba.
  - apply py_eqb_eq in Hba as ->. by rewrite py_eqb_refl in Hab.
Qed.

Lemma py_ge_le a b : py_ge a b = py_le b a.
Proof.
  revert b. induction a as [x|s|l IH] using pyval_ind; intros [y|t|k];
    try done.
  simpl. revert k. induction IH as [|a l Ha _ IHl]; intros [|b k]; try done.
  rewrite (py_eqb_sym b a). destruct (py_eqb a b); [apply IHl|apply Ha].
Qed.

(** [<=] on values is antisymmetric and transitive where it is
    defined. *)
Lemma py_le_order a :
  (∀ b, py_le a b = Ok true → py_le b a = Ok true → a = b) ∧
  (∀ b c, py_le a b = Ok true → py_le b c = Ok true → py_le a c = Ok true).
Proof.
  induction a as [x|s|l IH] using pyval_ind.
  - split.
    + intros [y|t|k]; simpl; try done. intros [= H1] [= H2].
      f_equal. apply Z.leb_le in H1, H2. lia.
    + intros [y|t|k] [z|u|m]; simpl; try done. intros [= H1] [= H2].
      f_equal. apply Z.leb_le in H1, H2. apply Z.leb_le. lia.
  - split.
    + intros [y|t|k]; simpl; try done. intros [= H1] [= H2].
      f_equal. by apply String.leb_antisym.
    + intros [y|t|k] [z|u|m]; simpl; try done. intros [= H1] [= H2].
      f_equal. by eapply string_leb_trans.
  - split.
    + intros [y|t|k]; simpl; try done. revert k.
      induction IH as [|a l [Hanti _] _ IHl]; intros [|b k]; try done.
      rewrite (py_eqb_sym b a). destruct (py_eqb a b) eqn:Hab.
      * apply py_eqb_eq in Hab as ->. intros H1 H2.
        specialize (IHl k H1 H2). congruence.
      * intros H1 H2. apply py_eqb_neq in Hab. destruct Hab. by apply Hanti.
    + intros [y|t|k] [z|u|m]; simpl; try done. revert k m.
      induction IH as [|a l [Hanti Htrans] _ IHl]; intros [|b k] [|c m];
        try done.
      destruct (py_eqb a b) eqn:Hab.
      * apply py_eqb_eq in Hab as ->. destruct (py_eqb b c); [apply IHl|done].
      * destruct (py_eqb b c) eqn:Hbc.
        -- apply py_eqb_eq in Hbc as ->. rewrite Hab. done.
        -- intros H1 H2. destruct (py_eqb a c) eqn:Hac.
           ++ apply py_eqb_eq in Hac as ->. apply py_eqb_neq in Hab.
              destruct Hab. by apply Hanti.
           ++ by eapply Htrans.
Qed.

Lemma py_le_trans a b c :
  py_le a b = Ok true → py_le b c = Ok true → py_le a c = Ok true.
Proof. apply py_le_order. Qed.

Lemma py_issubset_trans a b c :
  py_issubset a b = Ok true → py_issubset b c = Ok true →
  py_issubset a c = Ok true.
Proof.
  unfold py_issubset.
  destruct (py_set a) as [sa|]; [|done]. cbn [mbind result_bind].
  destruct (py_set b) as [sb|]; [|done]. cbn [mbind result_bind].
  destruct (py_set c) as [sc|]; [|done]. cbn [mbind result_bind].
  intros [= H1] [= H2]. f_equal.
  apply forallb_in_list_subseteq in H1, H2. apply forallb_in_list_subseteq.
  by etrans.
Qed.

Lemma operators_trans op f a b c :
  (op, f) ∈ operators → f a b = Ok true → f b c = Ok true → f a c = Ok true.
Proof.
  intros Hin. unfold operators in Hin.
  repeat (apply elem_of_cons in Hin as [[= -> ->]|Hin]);
    [| | | | | |by apply elem_of_nil in Hin].
  - intros [= ->%py_eqb_eq] [= ->%py_eqb_eq]. by rewrite py_eqb_refl.
  - apply py_le_trans.
  - apply py_le_trans.
  - rewrite !py_ge_le. intros ??. by eapply py_le_trans.
  - rewrite !py_ge_le. intros ??. by eapply py_le_trans.
  - apply py_issubset_trans.
Qed.

(** When the loop of [_is_subdict] returns the empty set it started
    from the empty set, and every operator of [d2] is in [d1] with the
    operation satisfied. *)
Lemma unmatched_loop_empty ops d1 d2 U :
  unmatched_loop ops d1 d2 U = Ok ∅ →
  U = ∅ ∧
  ∀ op f b, (op, f) ∈ ops → dict_get op d2 = Some b →
            ∃ a, dict_get op d1 = Some a ∧ f a b = Ok true.
Proof.
  revert U. induction ops as [|[op f] ops IH]; intros U; cbn [unmatched_loop].
  - intros [= ->]. split; [done|]. by intros ??? ?%elem_of_nil.
  - destruct (dict_get op d2) as [b|] eqn:H2.
    + destruct (dict_get op d1) as [a|] eqn:H1.
      * destruct (f a b) as [[]|] eqn:Hf; [| |done]; cbn [mbind result_bind];
          intros [HU Hall]%IH; [|set_solver].
        split; [done|]. intros op' f' b' [[= -> ->]|Hin]%elem_of_cons Hb'.
        -- exists a. split; [done|]. congruence.
        -- by eapply Hall.
      * intros [HU _]%IH. set_solver.
    + intros [HU Hall]%IH. split; [done|].
      intros op' f' b' [[= -> ->]|Hin]%elem_of_cons Hb'; [congruence|].
      by eapply Hall.
Qed.

Lemma is_subdict_true d1 d2 :
  _is_subdict d1 d2 = Ok true →
  valid_keys d1 = true ∧ valid_keys d2 = true ∧
  ∀ op f b, (op, f) ∈ operators → dict_get op d2 = Some b →
            ∃ a, dict_get op d1 = Some a ∧ f a b = Ok true.
Proof.
  unfold _is_subdict.
  destruct (valid_keys d1); [|done]. destruct (valid_keys d2); [|done].
  cbn [negb].
  destruct (unmatched_loop operators d1 d2 ∅) as [U|] eqn:HU; [|done].
  cbn [mbind result_bind]. intros [= HU'%bool_decide_eq_true].
  apply size_empty_iff, leibniz_equiv in HU'. subst U.
  split_and!; [done..|]. by apply unmatched_loop_empty in HU as [_ ?].
Qed.

Lemma is_subdict_trans d1 d2 d3 :
  _is_subdict d1 d2 = Ok true → _is_subdict d2 d3 = Ok true →
  _is_subdict d1 d3 = Ok true.
Proof.
  intros (Hv1 & _ & H12)%is_subdict_true (_ & Hv3 & H23)%is_subdict_true.
  assert (∀ op f c, (op, f) ∈ operators → dict_get op d3 = Some c →
            ∃ a, dict_get op d1 = Some a ∧ f a c = Ok true) as H13.
  { intros op f c Hin Hc.
    destruct (H23 op f c Hin Hc) as (b & Hb & Hbc).
    destruct (H12 op f b Hin Hb) as (a & Ha & Hab).
    exists a. split; [done|]. by eapply operators_trans. }
  unfold _is_subdict. rewrite Hv1, Hv3. cbn [negb].
  destruct (unmatched_loop_spec operators d1 d3 ∅) as (U & -> & HU).
  { intros op f a c Hin Ha Hc. destruct (H13 op f c Hin Hc) as (a' & Ha' & Hf).
    exists true. congruence. }
  cbn [mbind result_bind]. f_equal.
  rewrite bool_decide_eq_true, size_empty_iff. unfold_leibniz. by apply HU.
Qed.

(** X15. The non-strict sub-filter test is transitive: if [a] is a
    sub-filter of [b] and [b] of [c], then [a] is a sub-filter of
    [c]. *)
Theorem is_subfilter_transitive (a b c : filter_dict) :
  is_subfilter a b false = Ok true → is_subfilter b c false = Ok true →
  is_subfilter a c false = Ok true.
Proof.
  unfold is_subfilter. rewrite !subfilter_loop_nonstrict, !Forall_forall.
  intros Hab Hbc [key cv] Hc.
  destruct (Hbc _ Hc) as (bv & db & dc & Hgb & Hdb & Hdc & Hsub_bc).
  simpl in *. apply dict_get_Some_elem in Hgb.
  destruct (Hab _ Hgb) as (av & da & db' & Hga & Hda & Hdb' & Hsub_ab).
  simpl in *. assert (db' = db) as -> by congruence.
  exists av, da, dc. split_and!; [done..|]. by eapply is_subdict_trans.
Qed.

(** ** [smart_concat]: the order of the index levels *)

Section concat_order.
Context `{Engine}.

Lemma ordered_all_same order objects :
  Forall (λ obj, index_names obj = order) objects →
  ordered_all (Some order) objects = Ok objects.
Proof.
  induction 1 as [|obj objects Hobj _ IH]; [done|].
  cbn [ordered_all]. unfold _ordered.
  rewrite bool_decide_eq_true_2 by done. cbn [mbind result_bind].
  by rewrite IH.
Qed.

Lemma ordered_permuted order obj :
  index_names obj ≡ₚ order →
  (_ordered (Some order) obj).1 =
    if bool_decide (order = index_names obj) then Ok obj
    else pd_reorder_levels obj order.
Proof.
  intros Hperm. unfold _ordered. cbn [fst]. case_bool_decide; [done|].
  unfold _reorder_levels. rewrite (Permutation_length Hperm), Nat.eqb_refl.
  cbn [negb]. rewrite bool_decide_eq_false_2; [done|].
  intros Hne. apply Hne. apply set_eq. intros x.
  rewrite elem_of_difference, !elem_of_list_to_set, Hperm. set_solver.
Qed.

Lemma ordered_all_permuted order objects :
  Forall (λ obj, index_names obj ≡ₚ order) objects →
  ordered_all (Some order) objects =
    mapM (λ obj, if bool_decide (order = index_names obj) then Ok obj
                 else pd_reorder_levels obj order) objects.
Proof.
  induction 1 as [|obj objects Hobj _ IH]; [done|].
  rewrite mapM_result_cons. cbn [ordered_all].
  pose proof (ordered_permuted order obj Hobj) as Ho.
  destruct (_ordered (Some order) obj) as [r o'] eqn:Hr.
  assert (o' = Some order) as -> by (unfold _ordered in Hr; congruence).
  cbn [fst] in Ho. rewrite Ho, IH. done.
Qed.

(** X16. An operand whose index has another number of levels than the
    first operand, the operands before it having the level names of the
    first one, makes [smart_concat] raise the [RuntimeError] that gives
    the number of levels of the operand and the number expected. *)
Theorem smart_concat_different_level_count (first obj : DataFrame)
    (pre post : list DataFrame) (keys : option (list pyval))
    (skip_empty : bool) :
  Forall (λ o, index_names o = index_names first) pre →
  length (index_names obj) ≠ length (index_names first) →
  smart_concat (first :: pre ++ obj :: post) keys skip_empty =
    Err (LevelsLengthMismatch (length (index_names obj))
                              (length (index_names first))).
Proof.
  intros Hpre Hlen.
  apply (smart_concat_level_count first pre pre); [|done].
  by apply ordered_all_same.
Qed.


(** X18. Operands that all have the index level names of the first
    one, in the same order, are passed to [concat] as they are, without
    the empty ones unless [skip_empty] is off or all are empty: nothing
    is reordered and [smart_concat] raises nothing of its own. *)
Theorem smart_concat_same_levels (first : DataFrame) (others : list DataFrame)
    (keys : option (list pyval)) (skip_empty : bool) :
  Forall (λ o, index_names o = index_names first) others →
  smart_concat (first :: others) keys skip_empty =
    pd_concat (without_empty skip_empty (first :: others)) keys.
Proof.
  intros Hothers. unfold smart_concat.
  rewrite ordered_all_first, (ordered_all_same _ others) by done. done.
Qed.

(** X19. When the level names of every operand are the level names of
    the first one up to their order, [smart_concat] never raises its
    [RuntimeError]: each operand is kept, or reordered by
    [reorder_levels] to the order of the first one, and the result goes
    to [concat]. *)
Theorem smart_concat_permuted_levels (first : DataFrame)
    (others : list DataFrame) (keys : option (list pyval))
    (skip_empty : bool) :
  Forall (λ o, index_names o ≡ₚ index_names first) others →
  smart_concat (first :: others) keys skip_empty =
    objects ← mapM (kept_or_reordered first) (first :: others);
    pd_concat (without_empty skip_empty objects) keys.
Proof.
  intros Hothers. unfold smart_concat.
  rewrite ordered_all_first, ordered_all_permuted by done.
  assert (kept_or_reordered first first = Ok first) as Hfirst.
  { unfold kept_or_reordered. by rewrite bool_decide_eq_true_2. }
  rewrite (mapM_result_cons (kept_or_reordered first)), Hfirst.
  cbn [mbind result_bind]. fold (kept_or_reordered first).
  by destruct (mapM _ others).
Qed.

End concat_order.

(** ** The stack of the cache *)

Lemma fvalue_eqb_refl v : dict_value v → fvalue_eqb v v = true.
Proof. destruct v; simpl; [intros _; apply py_eqb_refl|apply dict_eqb_refl]. Qed.

Lemma matching_prefix_matches stack q :
  let matched := matching_prefix_length stack q in
  Forall2 item_matches (take matched stack) (take matched q).
Proof.
  revert q. induction stack as [|item stack IH]; intros [|[k v] q]; simpl;
    try constructor.
  destruct (String.eqb_spec (ci_key item) k) as [Hk|]; [|constructor].
  destruct (fvalue_eqb (ci_value item) v) eqn:Hv; simpl; constructor.
  - done.
  - apply IH.
Qed.

Lemma matching_prefix_full stack q :
  Forall2 item_matches stack q → matching_prefix_length stack q = length q.
Proof.
  induction 1 as [|item [k v] stack q [Hk Hv] _ IH]; [done|].
  simpl in *. rewrite Hk, String.eqb_refl, Hv. simpl. by rewrite IH.
Qed.

Section stack_facts.
Context `{Engine}.



(** What the loop of [query] does to the stack: it appends one item per
    field it filters by, with the key and the value of the field, and
    it stops at the first field that fails. *)
Lemma extend_stack_items stack df todo :
  ∃ items,
    (extend_stack stack df todo).1 = stack ++ items ∧
    Forall2 (λ item kv, ci_key item = kv.1 ∧ ci_value item = kv.2)
      items (take (length items) todo) ∧
    match (extend_stack stack df todo).2 with
    | Ok T => length items = length todo ∧ T = top df items
    | Err e =>
        length items < length todo ∧
        ∃ kv, todo !! length items = Some kv ∧
              etl_q (top df items) [kv] = Err e
    end.
Proof.
  revert stack df. induction todo as [|[col val] todo IH]; intros stack df.
  - exists []. cbn. rewrite app_nil_r. split_and!; [done|constructor|done..].
  - cbn [extend_stack]. destruct (etl_q df [(col, val)]) as [df'|e] eqn:Hq.
    + destruct (IH (stack ++ [mkCachedItem df' col val]) df')
        as (items & Hst & Hitems & Hres).
      exists (mkCachedItem df' col val :: items).
      rewrite Hst, <-app_assoc. split_and!; [done|by constructor|].
      rewrite top_cons. cbn [length lookup list_lookup].
      destruct (extend_stack _ _ _).2; [|split; [lia|]]; naive_solver lia.
    + exists []. cbn [fst snd length app take]. rewrite app_nil_r.
      split_and!; [done|constructor|lia|]. by exists (col, val).
Qed.

(** X20. After a call of [query], whatever it returned, the stack has
    the first matched items of the stack before the call, the matched
    count exceeds neither the length of that stack nor the number of
    fields of the query, and the base table and the valid keys are the
    same: the call cuts the stack, extends it, and reuses the items it
    keeps. *)
Theorem query_keeps_matched_items (self : CachedDataFrame) (q : filter_dict)
    (ignore_unknown_keys : bool) :
  let after := (query self q ignore_unknown_keys).1 in
  let asked := if ignore_unknown_keys
               then filter (λ kv, kv.1 ∈ _valid_keys self) q else q in
  _matched after ≤ length (_stack self) ∧
  _matched after ≤ length asked ∧
  _matched after ≤ length (_stack after) ∧
  take (_matched after) (_stack after) = take (_matched after) (_stack self) ∧
  _df after = _df self ∧ _valid_keys after = _valid_keys self.
Proof.
  intros after asked. subst after. unfold query. fold asked.
  unfold _longest_keys_count, _longest_values_count.
  rewrite min_longest_match_count.
  set (matched := matching_prefix_length (_stack self) asked).
  pose proof (matching_prefix_length_le (_stack self) asked) as [Hl1 Hl2].
  fold matched in Hl1, Hl2.
  assert (length (take matched (_stack self)) = matched) as Hlen
    by (rewrite length_take; lia).
  rewrite Hlen.
  destruct (extend_stack_items (take matched (_stack self))
              (match last (take matched (_stack self)) with
               | Some item => ci_df item
               | None => _df self
               end) (drop matched asked)) as (items & Hst & _).
  destruct (extend_stack _ _ _) as [stack' returned]. cbn [fst snd] in *.
  subst stack'. cbn [_stack _matched _df _valid_keys].
  split_and!; [done|done| | |done|done].
  - rewrite length_app. lia.
  - rewrite take_app_le by lia. by rewrite take_take, Nat.min_id.
Qed.

Lemma new_items_match items todo :
  Forall2 (λ item kv, ci_key item = kv.1 ∧ ci_value item = kv.2) items todo →
  Forall (λ kv, dict_value kv.2) todo →
  Forall2 item_matches items todo.
Proof.
  induction 1 as [|item kv items todo [Hk Hv] _ IH]; [constructor|].
  intros [Hd Hds]%Forall_cons. constructor; [|by apply IH].
  split; [done|]. rewrite Hv. by apply fvalue_eqb_refl.
Qed.


(** The stack after a call of [query] on a cache in order: it matches
    the first fields of the query, all of them exactly when the call
    returns. *)
Lemma query_stack_spec base self q ignore_unknown_keys :
  cache_ok base self → Forall (λ kv, dict_value kv.2) q →
  let asked := asked_query base q ignore_unknown_keys in
  let after := (query self q ignore_unknown_keys).1 in
  Forall2 item_matches (_stack after) (take (length (_stack after)) asked) ∧
  match (query self q ignore_unknown_keys).2 with
  | Ok T => length (_stack after) = length asked ∧ T = top base (_stack after)
  | Err e => length (_stack after) < length asked
  end.
Proof.
  intros (Hdf & Hkeys & Hchain & Hds) Hq asked after. subst after.
  unfold query. rewrite Hkeys, asked_query_valid.
  fold asked.
  assert (Forall (λ kv, dict_value kv.2) asked) as Hasked.
  { unfold asked, asked_query. destruct ignore_unknown_keys; [|done].
    rewrite Forall_forall in *. intros x [_ Hx]%list_elem_of_filter. auto. }
  unfold _longest_keys_count, _longest_values_count.
  rewrite min_longest_match_count.
  pose proof (matching_prefix_matches (_stack self) asked) as Hkept.
  cbv zeta in Hkept.
  set (matched := matching_prefix_length (_stack self) asked) in *.
  pose proof (matching_prefix_length_le (_stack self) asked) as [Hl1 Hl2].
  fold matched in Hl1, Hl2.
  assert (length (take matched (_stack self)) = matched) as Hlen
    by (rewrite length_take; lia).
  rewrite Hlen, Hdf. fold (top base (take matched (_stack self))).
  destruct (extend_stack_items (take matched (_stack self))
              (top base (take matched (_stack self))) (drop matched asked))
    as (items & Hst & Hitems & Hres).
  destruct (extend_stack _ _ _) as [stack' returned]. cbn [fst snd] in *.
  subst stack'. cbn [_stack].
  apply new_items_match in Hitems; [|by apply Forall_take, Forall_drop].
  rewrite length_app, Hlen, <-take_take_drop. split.
  - by apply Forall2_app.
  - rewrite length_drop in Hres. destruct returned as [T|e].
    + destruct Hres as [Hn ->]. split; [lia|].
      unfold top. destruct items as [|it items _] using rev_ind.
      * by rewrite app_nil_r.
      * by rewrite app_assoc, !last_snoc.
    + destruct Hres as [Hn _]. lia.
Qed.



(** X22. Asking again the query that has just been answered is a full
    hit: the matched count is the number of fields, the stack is left
    as it is and the same table is returned. *)
Theorem query_again_is_full_hit (base : DataFrame)
    (calls : list (filter_dict * bool)) (q : filter_dict)
    (ignore_unknown_keys : bool) (T : DataFrame) :
  Forall (λ call : filter_dict * bool, well_formed_query call.1) calls →
  well_formed_query q →
  let self := run_queries (init base) calls in
  let after := (query self q ignore_unknown_keys).1 in
  (query self q ignore_unknown_keys).2 = Ok T →
  query after q ignore_unknown_keys =
    (mkCachedDataFrame base (_valid_keys (init base)) (_stack after)
       (length (asked_query base q ignore_unknown_keys)), Ok T).
Proof.
  intros Hcalls [Hd Hq] self after HT.
  assert (cache_ok base self) as Hok
    by (apply run_queries_ok; [apply init_ok|done]).
  destruct (query_stack_spec base self q ignore_unknown_keys Hok Hq)
    as [Hmatch Hres].
  destruct (query_step base self q ignore_unknown_keys Hok Hq)
    as [(Hdf & Hkeys & _ & _) _].
  fold after in Hmatch, Hres, Hdf, Hkeys. rewrite HT in Hres.
  destruct Hres as [Hlen ->].
  rewrite Hlen, firstn_all in Hmatch.
  unfold query at 1. rewrite Hkeys, Hdf, asked_query_valid.
  unfold _longest_keys_count, _longest_values_count.
  rewrite min_longest_match_count, (matching_prefix_full _ _ Hmatch).
  rewrite <-Hlen, firstn_all, Hlen, drop_all. done.
Qed.


End stack_facts.

(** * Instances of the further properties *)

(** The filter of [test_andor_mask] on the column [col1]. *)
Lemma query_frame_selects_rows_witness :
  let T := loc andor_table [false; true; true; false; false] in
  index_names T = index_names andor_table ∧
  columns T = columns andor_table ∧
  rows T `sublist_of` rows andor_table ∧
  ∃ mask, length mask = length (rows andor_table) ∧
          rows T = filter_mask (rows andor_table) mask.
Proof.
  apply (@query_frame_selects_rows cellwise_engine andor_table
           (loc andor_table [false; true; true; false; false])
           [ [("col1", FDict [("ge", PInt 10); ("lt", PInt 20)])] ]).
  - compute_done.
  - vm_compute. reflexivity.
Defined.

(** The query lists of [test_andor_mask], split in two. *)
Lemma and_or_mask_app_witness :
  let filter_func := @frame_filter_func cellwise_engine andor_table in
  let ql1 := [ [("col1", FVal (PInt 10))] ] in
  let ql2 := [ [("col1", FVal (PInt 11)); ("col2", FVal (PInt 111))]; [] ] in
  _and_or_mask (ql1 ++ ql2) filter_func =
    (m1 ← _and_or_mask ql1 filter_func;
     m2 ← _and_or_mask ql2 filter_func;
     Ok (match m1, m2 with
         | Some a, Some b => Some (zip_with orb a b)
         | Some a, None => Some a
         | None, m => m
         end)) ∧
  ∀ mask, _and_or_mask (ql1 ++ ql2) filter_func = Ok (Some mask) →
          length mask = 5.
Proof.
  intros filter_func ql1 ql2.
  apply (and_or_mask_app ql1 ql2 filter_func 5).
  intros q ms. apply (@frame_filter_func_masks cellwise_engine andor_table).
Defined.

Lemma query_series_selects_rows_witness :
  let T := series_loc andor_series [false; true; false] in
  s_index_names T = s_index_names andor_series ∧
  s_rows T `sublist_of` s_rows andor_series ∧
  ∃ mask, length mask = length (s_rows andor_series) ∧
          s_rows T = filter_mask (s_rows andor_series) mask.
Proof.
  apply (@query_series_selects_rows cellwise_engine andor_series
           (series_loc andor_series [false; true; false])
           [ [("col1", FVal (PInt 10))] ]).
  vm_compute. reflexivity.
Defined.

Lemma query_frame_unknown_key_witness :
  @query_frame cellwise_engine andor_table
    [ [("col1", FVal (PInt 0)); ("col3", FVal (PInt 1)); ("col4", FVal (PInt 2))];
      [("col2", FVal (PInt 100))] ]
    = Err (KeyError "col3").
Proof.
  apply (@query_frame_unknown_key cellwise_engine andor_table
           [("col1", FVal (PInt 0))] [("col4", FVal (PInt 2))]
           "col3" (FVal (PInt 1)) [ [("col2", FVal (PInt 100))] ]).
  - apply Forall_cons. split; [left; compute_done|constructor].
  - compute_done.
  - compute_done.
Defined.

Lemma compare_mapping_app_witness :
  let obj := PInt <$> [0; 10; 11; 12; 20; 21; 10; 2]%Z in
  @compare cellwise_engine obj (FDict ([("ge", PInt 10)] ++ [("lt", PInt 12)])) =
    m1 ← @compare cellwise_engine obj (FDict [("ge", PInt 10)]);
    m2 ← @compare cellwise_engine obj (FDict [("lt", PInt 12)]);
    Ok (zip_with andb m1 m2).
Proof.
  intros obj.
  apply (@compare_mapping_app cellwise_engine obj
           [("ge", PInt 10)] [("lt", PInt 12)]).
  - discriminate.
  - discriminate.
  - intros op Hop. each_member Hop; compute_done.
Defined.

Lemma compare_mapping_permutation_witness :
  let obj := PInt <$> [0; 10; 11; 12]%Z in
  @compare cellwise_engine obj (FDict [("lt", PInt 12); ("ge", PInt 10)])
    = Ok [false; true; true; false].
Proof.
  apply (@compare_mapping_permutation cellwise_engine
           (PInt <$> [0; 10; 11; 12]%Z)
           [("ge", PInt 10); ("lt", PInt 12)]
           [("lt", PInt 12); ("ge", PInt 10)]).
  - apply perm_swap.
  - vm_compute. reflexivity.
Defined.

Lemma is_subfilter_missing_field_witness :
  is_subfilter [("other", FVal (PInt 1))] bounds_filter false = Ok false ∧
  false = false.
Proof.
  assert (is_subfilter [("other", FVal (PInt 1))] bounds_filter false
          = Ok false) as Hcall by (vm_compute; reflexivity).
  split; [exact Hcall|].
  apply (is_subfilter_missing_field [("other", FVal (PInt 1))] bounds_filter
           false "key" false).
  - compute_done.
  - compute_done.
  - exact Hcall.
Defined.

Lemma is_subfilter_normal_forms_witness :
  is_subfilter [("key", FVal (PInt 1))]
               [("key", FVal (PList [PInt 1; PInt 2]))] true
  = is_subfilter [("key", FDict [("eq", PInt 1)])]
                 [("key", FDict [("isin", PList [PInt 1; PInt 2])])] true.
Proof.
  apply (is_subfilter_normal_forms
           [("key", FVal (PInt 1))] [("key", FDict [("eq", PInt 1)])]
           [("key", FVal (PList [PInt 1; PInt 2]))]
           [("key", FDict [("isin", PList [PInt 1; PInt 2])])] true).
  - repeat constructor.
  - repeat constructor.
Defined.

Lemma is_subfilter_scalar_spellings_witness :
  let spelled value := [("key", value); ("other", FVal (PInt 1))] in
  Forall (λ value,
            is_subfilter (spelled value) bounds_filter false
              = is_subfilter (spelled (FVal (PInt 2))) bounds_filter false ∧
            is_subfilter bounds_filter (spelled value) false
              = is_subfilter bounds_filter (spelled (FVal (PInt 2))) false)
    [ FVal (PList [PInt 2]); FDict [("eq", PInt 2)];
      FDict [("isin", PList [PInt 2])] ].
Proof.
  apply (is_subfilter_scalar_spellings [] [("other", FVal (PInt 1))]
           bounds_filter "key" (PInt 2) false).
  reflexivity.
Defined.

Lemma is_subfilter_strict_of_extra_field_witness :
  is_subfilter bounds_filter [("key", FDict [("le", PInt 4)])] true = Ok true.
Proof.
  apply (is_subfilter_strict_of_extra_field bounds_filter
           [("key", FDict [("le", PInt 4)])] "other").
  - compute_done.
  - compute_done.
  - compute_done.
  - vm_compute. reflexivity.
Defined.

Lemma is_subfilter_strict_is_subfilter_witness :
  is_subfilter bounds_filter [("key", FDict [("le", PInt 4)])] true = Ok true ∧
  is_subfilter bounds_filter [("key", FDict [("le", PInt 4)])] false = Ok true ∧
  true = true.
Proof.
  assert (is_subfilter bounds_filter [("key", FDict [("le", PInt 4)])] true
          = Ok true) as Hstrict by (vm_compute; reflexivity).
  assert (is_subfilter bounds_filter [("key", FDict [("le", PInt 4)])] false
          = Ok true) as Hnonstrict by (vm_compute; reflexivity).
  split_and!; [exact Hstrict|exact Hnonstrict|].
  apply (is_subfilter_strict_is_subfilter bounds_filter
           [("key", FDict [("le", PInt 4)])] true).
  - repeat constructor; compute_done.
  - exact Hstrict.
  - exact Hnonstrict.
Defined.

Lemma is_subfilter_transitive_witness :
  is_subfilter bounds_filter [("key", FDict [("le", PInt 5)])] false = Ok true.
Proof.
  apply (is_subfilter_transitive bounds_filter
           [("key", FDict [("le", PInt 4); ("ge", PInt 0)]);
            ("other", FVal (PList [PInt 1; PInt 2]))]
           [("key", FDict [("le", PInt 5)])]).
  - vm_compute. reflexivity.
  - vm_compute. reflexivity.
Defined.

Lemma smart_concat_different_level_count_witness :
  @smart_concat cellwise_engine
    [levels_i0_i1; levels_i0_i1; levels_i0_i1_i2; levels_i1_i0] None true
    = Err (LevelsLengthMismatch 3 2).
Proof.
  apply (@smart_concat_different_level_count cellwise_engine levels_i0_i1
           levels_i0_i1_i2 [levels_i0_i1] [levels_i1_i0] None true).
  - repeat constructor.
  - simpl. lia.
Defined.


Lemma smart_concat_same_levels_witness :
  @smart_concat cellwise_engine
    [levels_i0_i1; no_rows_i0_i1; levels_i0_i1] None true
  = @pd_concat cellwise_engine
      (without_empty true [levels_i0_i1; no_rows_i0_i1; levels_i0_i1]) None.
Proof.
  apply (@smart_concat_same_levels cellwise_engine levels_i0_i1
           [no_rows_i0_i1; levels_i0_i1] None true).
  repeat constructor.
Defined.

Lemma smart_concat_permuted_levels_witness :
  @smart_concat cellwise_engine [levels_i0_i1; levels_i1_i0] None true =
    objects ← mapM (@kept_or_reordered cellwise_engine levels_i0_i1)
                 [levels_i0_i1; levels_i1_i0];
    @pd_concat cellwise_engine (without_empty true objects) None.
Proof.
  apply (@smart_concat_permuted_levels cellwise_engine levels_i0_i1
           [levels_i1_i0] None true).
  apply Forall_cons. split; [apply perm_swap|constructor].
Defined.


Lemma query_again_is_full_hit_witness :
  let self := @run_queries cellwise_engine (init simulations_table)
                [(window_query, false)] in
  let after := (@query cellwise_engine self (trial_query 1) false).1 in
  @query cellwise_engine after (trial_query 1) false =
    (mkCachedDataFrame simulations_table
       (_valid_keys (init simulations_table)) (_stack after)
       (length (asked_query simulations_table (trial_query 1) false)),
     Ok (loc simulations_table
           [false; false; false; false; false; true; false; false])).
Proof.
  apply (@query_again_is_full_hit cellwise_engine simulations_table
           [(window_query, false)] (trial_query 1) false
           (loc simulations_table
              [false; false; false; false; false; true; false; false])).
  - repeat constructor; compute_done.
  - repeat constructor; compute_done.
  - vm_compute. reflexivity.
Defined.

